(** * skimage.measure._marching_cubes

    A shallow embedding of [marching_cubes], [mesh_surface_area] and
    [correct_mesh_orientation] from [measure/_marching_cubes.py].

    - Scalars are IEEE-754 binary64 numbers ([float], the kernel's primitive
      floats), as in the [np.float64] arrays of the source.
    - Mesh arrays ([verts], [faces]) live in a store and are passed by
      reference; a call threads the store and the list of calls made to the
      numerical collaborators through a state-and-exception monad.
    - NumPy's and SciPy's routines ([np.gradient], [ndi.map_coordinates]) and
      the Cython cell iterator are taken as parameters ([Collaborators]). *)

From Stdlib Require Import ZArith Floats String List Bool Lia.
From stdpp Require Import base option list gmap.

(** ** Scalars, vectors and index triples *)

Abbreviation vec3 := (float * float * float)%type.
Abbreviation face := (Z * Z * Z)%type.
Abbreviation triangle := (vec3 * vec3 * vec3)%type.
Abbreviation loc := positive.

Module Float64.

(** A binary64 value that is not below zero: a NaN, a zero of either sign, a
    positive finite number or plus infinity. *)
Definition not_negative (x : spec_float) : Prop :=
  match x with
  | S754_infinity true | S754_finite true _ _ => False
  | _ => True
  end.

(** The order between two values as a comparison, [None] when one is a NaN. *)
Definition cmp (x y : float) : option comparison :=
  SFcompare (Prim2SF x) (Prim2SF y).

(** A lower and an upper bound of the same data: both are NaN, or neither
    is and the upper one is not below the lower one. *)
Definition ordered (lo hi : float) : Prop :=
  (is_nan lo = true ∧ is_nan hi = true) ∨
  (is_nan lo = false ∧ is_nan hi = false ∧ (hi <? lo)%float = false).

(** [y] is the negative of [x], the two zeros taken as one number. *)
Definition mirror (x y : spec_float) : Prop :=
  match x, y with
  | S754_zero _, S754_zero _ => True
  | _, _ => y = SFopp x
  end.

(** [u == v] on coordinate triples: IEEE equality component by component,
    under which the two zeros are equal and a NaN is equal to nothing. *)
Definition vec3_eqb (u v : vec3) : bool :=
  let '(u0, u1, u2) := u in
  let '(v0, v1, v2) := v in
  (u0 =? v0)%float && (u1 =? v1)%float && (u2 =? v2)%float.

End Float64.

Module Vec.

Definition sub (u v : vec3) : vec3 :=
  let '(u0, u1, u2) := u in
  let '(v0, v1, v2) := v in
  (u0 - v0, u1 - v1, u2 - v2)%float.

Definition add (u v : vec3) : vec3 :=
  let '(u0, u1, u2) := u in
  let '(v0, v1, v2) := v in
  (u0 + v0, u1 + v1, u2 + v2)%float.

Definition mul (u v : vec3) : vec3 :=
  let '(u0, u1, u2) := u in
  let '(v0, v1, v2) := v in
  (u0 * v0, u1 * v1, u2 * v2)%float.

Definition div (u : vec3) (k : float) : vec3 :=
  let '(u0, u1, u2) := u in
  (u0 / k, u1 / k, u2 / k)%float.

(** A vector whose three components are zeros, of either sign. *)
Definition is_zero (u : vec3) : bool :=
  let '(u0, u1, u2) := u in
  PrimFloat.is_zero u0 && PrimFloat.is_zero u1 && PrimFloat.is_zero u2.

(** [x ** 2] on one row. *)
Definition square (u : vec3) : vec3 := mul u u.

(** [.sum(axis=1)] on one row of three entries. *)
Definition sum (u : vec3) : float :=
  let '(u0, u1, u2) := u in (u0 + u1 + u2)%float.

(** [np.cross] on one pair of rows. *)
Definition cross (a b : vec3) : vec3 :=
  let '(a0, a1, a2) := a in
  let '(b0, b1, b2) := b in
  (a1 * b2 - a2 * b1, a2 * b0 - a0 * b2, a0 * b1 - a1 * b0)%float.

(** [(x ** 2).sum(axis=1) ** 0.5] on one row: the Euclidean norm. *)
Definition norm (u : vec3) : float := sqrt (sum (square u)).

(** [x / (np.sum(x ** 2, axis=1) ** 0.5)[:, np.newaxis]] on one row. *)
Definition normalize (u : vec3) : vec3 := div u (norm u).

(** A vector whose three components are NaN. *)
Definition all_nan (u : vec3) : Prop :=
  let '(u0, u1, u2) := u in
  Prim2SF u0 = S754_nan ∧ Prim2SF u1 = S754_nan ∧ Prim2SF u2 = S754_nan.

End Vec.

(** ** Exceptions and the call monad *)

Inductive exn :=
  | ValueError (msg : string)
  | IndexError (msg : string)
  | TypeError (msg : string).

Inductive result (A : Type) :=
  | Ok (a : A)
  | Raise (e : exn).
Arguments Ok {A} a.
Arguments Raise {A} e.

#[global] Instance result_ret : MRet result := @Ok.
#[global] Instance result_bind : MBind result :=
  λ A B f r, match r with Ok a => f a | Raise e => Raise e end.

(** Calls that leave this module. *)
Inductive event :=
  | CallGradient
  | CallMapCoordinates
  | CallIterate
  | CallUnpack.

(** The arrays of a mesh: [(V, 3)] floats and [(F, 3)] integers; and the
    one-dimensional array of floats, which is what [np.asarray] makes of a
    list that has no row. *)
Inductive array :=
  | Verts (rows : list vec3)
  | Faces (rows : list face)
  | Flat (entries : list float).

Record state := State { heap : gmap loc array; trace : list event }.

Definition M (A : Type) : Type := state → result A * state.

#[global] Instance M_ret : MRet M := λ A a s, (Ok a, s).
#[global] Instance M_bind : MBind M :=
  λ A B f m s,
    match m s with
    | (Ok a, s') => f a s'
    | (Raise e, s') => (Raise e, s')
    end.

Definition raise {A} (e : exn) : M A := λ s, (Raise e, s).

Definition lift {A} (r : result A) : M A := λ s, (r, s).

Definition log (e : event) : M unit :=
  λ s, (Ok tt, State (heap s) (trace s ++ [e])).

(** A new array object. *)
Definition alloc (a : array) : M loc :=
  λ s, let l := fresh (dom (heap s)) in
       (Ok l, State (<[l:=a]> (heap s)) (trace s)).

(** The rows of the array indexed in [verts[faces]]; a one-dimensional
    array has no rows of three coordinates to give. *)
Definition load_verts (l : loc) : M (list vec3) :=
  λ s, match heap s !! l with
       | Some (Verts rows) => (Ok rows, s)
       | Some (Flat _) => (Raise (IndexError "too many indices for array"), s)
       | _ => (Raise (TypeError "expected a (V, 3) array of floats"), s)
       end.

(** NumPy's answer to an array of floats used as an index. *)
Definition index_type_error : exn :=
  IndexError "arrays used as indices must be of integer (or boolean) type".

(** The rows of the index array of [verts[faces]]; an array of floats is
    not accepted as an index. *)
Definition load_faces (l : loc) : M (list face) :=
  λ s, match heap s !! l with
       | Some (Faces rows) => (Ok rows, s)
       | Some (Flat _) => (Raise index_type_error, s)
       | _ => (Raise (TypeError "expected a (F, 3) array of ints"), s)
       end.

(** In-place write to an existing array object. *)
Definition store (l : loc) (a : array) : M unit :=
  λ s, (Ok tt, State (<[l:=a]> (heap s)) (trace s)).

(** A computation that leaves the store and the call trace as it found
    them, whatever it returns. *)
Definition read_only {A} (m : M A) : Prop := ∀ s, (m s).2 = s.

(** A computation after which every array of the initial store is still in
    the store, with its contents. *)
Definition preserves_store {A} (m : M A) : Prop :=
  ∀ s, heap s ⊆ heap (m s).2.

(** ** NumPy *)

Module Np.

(** A dense array of doubles: its shape and its entries in C order. *)
Record ndarray := NdArray { shape : list nat; data : list float }.

Definition ndim (a : ndarray) : nat := length (shape a).

(** The inner loops of [np.minimum] and [np.maximum]: a NaN seen first
    stays, a NaN seen later replaces the running value. *)
Definition minimum (x y : float) : float :=
  if (x <=? y)%float || is_nan x then x else y.

Definition maximum (x y : float) : float :=
  if (y <=? x)%float || is_nan x then x else y.

Definition reduce (op : float → float → float) (what : string)
    (l : list float) : result float :=
  match l with
  | [] => Raise (ValueError ("zero-size array to reduction operation "
                             ++ what ++ " which has no identity"))
  | x :: xs => Ok (fold_left op xs x)
  end.

(** [a.min()] and [a.max()]. *)
Definition min (a : ndarray) : result float := reduce minimum "minimum" (data a).
Definition max (a : ndarray) : result float := reduce maximum "maximum" (data a).

(** The eight running sums of the unrolled loop of NumPy's pairwise
    summation. *)
Definition lanes : Type :=
  float * float * float * float * float * float * float * float.

(** The unrolled loop: eight entries at a time are added to the eight
    running sums; fewer than eight entries are left over. *)
Fixpoint unrolled (r : lanes) (a : list float) : lanes * list float :=
  match a with
  | x0 :: x1 :: x2 :: x3 :: x4 :: x5 :: x6 :: x7 :: rest =>
      let '(r0, r1, r2, r3, r4, r5, r6, r7) := r in
      unrolled (r0 + x0, r1 + x1, r2 + x2, r3 + x3,
                r4 + x4, r5 + x5, r6 + x6, r7 + x7)%float rest
  | _ => (r, a)
  end.

(** A block of at most 128 entries: fewer than eight are added one after
    the other; otherwise the first eight start the running sums, the
    unrolled loop adds to them, the running sums are added in pairs, and the
    entries left over are added one after the other. *)
Definition block_sum (a : list float) : float :=
  match a with
  | x0 :: x1 :: x2 :: x3 :: x4 :: x5 :: x6 :: x7 :: rest =>
      let '((r0, r1, r2, r3, r4, r5, r6, r7), tail) :=
        unrolled (x0, x1, x2, x3, x4, x5, x6, x7) rest in
      fold_left PrimFloat.add tail
        ((r0 + r1 + (r2 + r3)) + (r4 + r5 + (r6 + r7)))%float
  | _ => fold_left PrimFloat.add a 0%float
  end.

(** [pairwise_sum]: more than 128 entries are split in two parts, the first
    of a length that is a multiple of eight, and the sums of the parts are
    added. [depth] bounds the number of nested splits; the length of the
    array is always enough. *)
Fixpoint pairwise_sum (depth : nat) (a : list float) : float :=
  match depth with
  | S depth' =>
      if 128 <? length a then
        let n2 := length a / 2 - (length a / 2) mod 8 in
        (pairwise_sum depth' (firstn n2 a) + pairwise_sum depth' (skipn n2 a))%float
      else block_sum a
  | O => block_sum a
  end.

(** [x.sum()] of a one-dimensional array of doubles: the pairwise sum added
    to the identity of the reduction. *)
Definition sum (l : list float) : float :=
  (0 + pairwise_sum (length l) l)%float.

(** [l[i]] with Python's index rule: [-len <= i < len], negative indices
    count from the end, anything else raises. *)
Definition getitem {A} (l : list A) (i : Z) : result A :=
  let n := Z.of_nat (length l) in
  let j := if (i <? 0)%Z then (i + n)%Z else i in
  if (0 <=? j)%Z && (j <? n)%Z then
    match l !! Z.to_nat j with
    | Some x => Ok x
    | None => Raise (IndexError "index out of bounds")
    end
  else Raise (IndexError "index out of bounds").

(** [verts[faces]]: one row of three vertices per face. *)
Definition take_face (verts : list vec3) (f : face) : result triangle :=
  let '(i0, i1, i2) := f in
  v0 ← getitem verts i0;
  v1 ← getitem verts i1;
  v2 ← getitem verts i2;
  Ok (v0, v1, v2).

Fixpoint take (verts : list vec3) (faces : list face) : result (list triangle) :=
  match faces with
  | [] => Ok []
  | f :: fs =>
      t ← take_face verts f;
      ts ← take verts fs;
      Ok (t :: ts)
  end.

(** [mask.nonzero()[0]]: the positions of the true entries, counted from
    [start]. *)
Fixpoint nonzero_from (start : nat) (mask : list bool) : list nat :=
  match mask with
  | [] => []
  | m :: ms =>
      if m then start :: nonzero_from (S start) ms
      else nonzero_from (S start) ms
  end.

Definition nonzero (mask : list bool) : list nat := nonzero_from 0 mask.

(** [l[mask]]: the rows of [l] at the true positions of [mask]. *)
Fixpoint select {A} (mask : list bool) (l : list A) : list A :=
  match mask, l with
  | m :: ms, x :: xs => if m then x :: select ms xs else select ms xs
  | _, _ => []
  end.

(** [arr[indices]] for an index array: a new array of the selected rows. *)
Fixpoint take_rows {A} (arr : list A) (indices : list nat) : result (list A) :=
  match indices with
  | [] => Ok []
  | i :: rest =>
      match arr !! i with
      | Some r => rs ← take_rows arr rest; Ok (r :: rs)
      | None => Raise (IndexError "index out of bounds")
      end
  end.

(** [arr[indices] = rows]: row [k] of [rows] is written at [indices[k]]. *)
Fixpoint put_rows {A} (arr : list A) (indices : list nat) (rows : list A)
    : result (list A) :=
  match indices, rows with
  | [], [] => Ok arr
  | i :: rest, r :: rs =>
      if decide (i < length arr) then put_rows (<[i:=r]> arr) rest rs
      else Raise (IndexError "index out of bounds")
  | _, _ => Raise (ValueError "shape mismatch")
  end.

(** [np.c_[x, y, z]] for three one-dimensional arrays of one length. *)
Definition c_ (xs ys zs : list float) : list vec3 :=
  zip_with (λ x yz, (x, yz.1, yz.2)) xs (zip ys zs).

End Np.
Export Np(ndarray, NdArray).

(** ** Collaborators

    What the module calls and does not define: [np.gradient] (one array per
    axis, or an exception when the volume does not fit the three spacings),
    [ndi.map_coordinates] (given here by its value at one coordinate; the
    call maps it over the columns of the coordinate array) and the Cython
    cell iterator [_marching_cubes_cy.iterate_and_store_3d]. *)

Class Collaborators := {
  gradient : ndarray → vec3 → result (ndarray * ndarray * ndarray);
  map_coordinate : ndarray → vec3 → float;
  iterate_and_store_3d : ndarray → float → vec3 → list triangle;
}.

(** ** Vertex welding *)

Module MarchingCubesCy.

(** Modelled from the spec: the state of the Mesh Builder of
    [_marching_cubes_cy.unpack_unique_verts], whose source is not part of
    the files at hand: "a mapping from exact coordinate value to an assigned
    integer index" beside the vertices kept so far. *)
Record welder := Welder {
  vert_index : list (vec3 * nat);
  vert_list : list vec3;
}.

(** Modelled from the spec: lookup in the mapping, "coordinate equality is
    exact floating-point equality (not tolerance-based)": the keys are
    compared with [==]. *)
Fixpoint find_index (d : list (vec3 * nat)) (v : vec3) : option nat :=
  match d with
  | [] => None
  | (k, i) :: d' => if Float64.vec3_eqb k v then Some i else find_index d' v
  end.

(** Modelled from the spec: "map its 3 coordinates to indices (inserting
    new entries as needed)", "assigning indices in first-seen order". *)
Definition weld (w : welder) (v : vec3) : nat * welder :=
  match find_index (vert_index w) v with
  | Some i => (i, w)
  | None =>
      let idx := length (vert_list w) in
      (idx, Welder ((v, idx) :: vert_index w) (vert_list w ++ [v]))
  end.

(** Modelled from the spec: "for each raw triangle ... emit the resulting
    index triple as a Face". *)
Definition weld_triangle (w : welder) (t : triangle) : (nat * nat * nat) * welder :=
  let '(v0, v1, v2) := t in
  let '(i0, w0) := weld w v0 in
  let '(i1, w1) := weld w0 v1 in
  let '(i2, w2) := weld w1 v2 in
  ((i0, i1, i2), w2).

(** Modelled from the spec: a raw triangle that repeats a corner. The
    comments at the call site in [marching_cubes] say that the cell iterator
    "returns degenerate triangles which have repeated vertices" and that the
    welding pass "returns a true mesh with no degenerate faces". *)
Definition degenerate (t : triangle) : bool :=
  let '(v0, v1, v2) := t in
  Float64.vec3_eqb v0 v1 || Float64.vec3_eqb v0 v2 || Float64.vec3_eqb v1 v2.

(** Modelled from the spec: the scan of the raw triangle stream, in which a
    degenerate triangle gives no face and no vertex. *)
Fixpoint weld_all (w : welder) (trilist : list triangle)
    : list (nat * nat * nat) * welder :=
  match trilist with
  | [] => ([], w)
  | t :: ts =>
      if degenerate t then weld_all w ts
      else
        let '(f, w') := weld_triangle w t in
        let '(fs, w'') := weld_all w' ts in
        (f :: fs, w'')
  end.

(** Modelled from the spec: [unpack_unique_verts], "Input: the raw triangle
    stream (each triangle = 3 explicit coordinates). Output: Mesh
    (deduplicated Vertices + index Faces)". *)
Definition unpack_unique_verts (trilist : list triangle)
    : list vec3 * list (nat * nat * nat) :=
  let '(face_list, w) := weld_all (Welder [] []) trilist in
  (vert_list w, face_list).

(** The invariant of the scan: the mapping sends a key to the position at
    which it is kept, every vertex kept is a key of the mapping, and no two
    vertices kept are equal. *)
Record consistent (w : welder) : Prop := {
  index_sound : ∀ k i, (k, i) ∈ vert_index w → vert_list w !! i = Some k;
  index_complete : ∀ k, k ∈ vert_list w → k ∈ (vert_index w).*1;
  verts_unique : ∀ i j u v, vert_list w !! i = Some u →
                            vert_list w !! j = Some v →
                            Float64.vec3_eqb u v = true → i = j;
}.

(** Every index of a face is a position in an array of [n] vertices. *)
Definition face_in_range (n : nat) (f : nat * nat * nat) : Prop :=
  f.1.1 < n ∧ f.1.2 < n ∧ f.2 < n.

End MarchingCubesCy.

(** ** The module's functions *)

Section MarchingCubes.

Context {lib : Collaborators}.

Definition np_gradient (volume : ndarray) (spacing : vec3)
    : M (ndarray * ndarray * ndarray) :=
  log CallGradient;; lift (gradient volume spacing).

Definition ndi_map_coordinates (input : ndarray) (coordinates : list vec3)
    : M (list float) :=
  log CallMapCoordinates;; mret (map (map_coordinate input) coordinates).

Definition cy_iterate_and_store_3d (volume : ndarray) (level : float)
    (spacing : vec3) : M (list triangle) :=
  log CallIterate;; mret (iterate_and_store_3d volume level spacing).

Definition cy_unpack_unique_verts (raw_faces : list triangle)
    : M (list vec3 * list (nat * nat * nat)) :=
  log CallUnpack;; mret (MarchingCubesCy.unpack_unique_verts raw_faces).

(** An index triple of the welding pass as a row of integers. *)
Definition face_row (f : nat * nat * nat) : face :=
  (Z.of_nat f.1.1, Z.of_nat f.1.2, Z.of_nat f.2).

(** [np.asarray] of the list of vertices and of the list of index triples:
    an array with one row per entry, and for the empty list the empty
    one-dimensional array of floats. *)
Definition asarray_verts (verts : list vec3) : array :=
  match verts with
  | [] => Flat []
  | _ => Verts verts
  end.

Definition asarray_faces (faces : list (nat * nat * nat)) : array :=
  match faces with
  | [] => Flat []
  | _ => Faces (map face_row faces)
  end.

Definition level_error : exn :=
  ValueError "Contour level must be within volume data range.".

(** [np.array(volume, dtype=np.float64, order="C")] and [float(level)] leave
    a volume of doubles and a double level as they are; the two arrays
    made by [np.asarray] are new objects. *)
Definition marching_cubes (volume : ndarray) (level : float) (spacing : vec3)
    : M (loc * loc) :=
  if negb (Np.ndim volume =? 3)%nat then
    raise (ValueError "Input volume must have 3 dimensions.")
  else
    vmin ← lift (Np.min volume);
    if (level <? vmin)%float then raise level_error
    else
      vmax ← lift (Np.max volume);
      if (vmax <? level)%float then raise level_error
      else
        raw_faces ← cy_iterate_and_store_3d volume level spacing;
        '(verts, faces) ← cy_unpack_unique_verts raw_faces;
        lv ← alloc (asarray_verts verts);
        lf ← alloc (asarray_faces faces);
        mret (lv, lf).

Definition edge_a (t : triangle) : vec3 := Vec.sub t.1.1 t.1.2.
Definition edge_b (t : triangle) : vec3 := Vec.sub t.1.1 t.2.

(** In [verts[faces]] the index array is examined first. *)
Definition mesh_surface_area (verts faces : loc) : M float :=
  fs ← load_faces faces;
  vs ← load_verts verts;
  actual_verts ← lift (Np.take vs fs);
  let a := map edge_a actual_verts in
  let b := map edge_b actual_verts in
  mret (Np.sum (map Vec.norm (zip_with Vec.cross a b)) / 2)%float.

(** [actual_verts.sum(axis=1) / 3.] on one face. *)
Definition centroid (t : triangle) : vec3 :=
  Vec.div (Vec.add (Vec.add t.1.1 t.1.2) t.2) 3%float.

Definition mode_error (gradient_direction : string) : exn :=
  ValueError ("Incorrect input " ++ gradient_direction
              ++ " in `gradient_direction`, see docstring.").

(** [sub in s] on Python strings. *)
Fixpoint contains (sub s : string) : bool :=
  String.prefix sub s ||
  match s with
  | EmptyString => false
  | String _ s' => contains sub s'
  end.

(** [row[::-1]] on an index triple. *)
Definition reversed (f : face) : face := (f.2, f.1.2, f.1.1).

(** [faces.copy()] is a new array object; the assignment
    [faces_corrected[indices] = faces_corrected[indices, ::-1]] reads the
    selected rows into a temporary and then writes them back reversed. *)
Definition correct_mesh_orientation (volume : ndarray) (verts faces : loc)
    (spacing : vec3) (gradient_direction : string) : M loc :=
  '(grad_x, grad_y, grad_z) ← np_gradient volume spacing;
  fs ← load_faces faces;
  vs ← load_verts verts;
  actual_verts ← lift (Np.take vs fs);
  let a := map edge_a actual_verts in
  let b := map edge_b actual_verts in
  let centroids := map centroid actual_verts in
  grad_centroids_x ← ndi_map_coordinates grad_x centroids;
  grad_centroids_y ← ndi_map_coordinates grad_y centroids;
  grad_centroids_z ← ndi_map_coordinates grad_z centroids;
  let grad_centroids :=
    Np.c_ grad_centroids_x grad_centroids_y grad_centroids_z in
  let grad_centroids := map Vec.normalize grad_centroids in
  let crosses := zip_with Vec.cross a b in
  let crosses := map Vec.normalize crosses in
  let dotproducts :=
    zip_with (λ g c, Vec.sum (Vec.mul g c)) grad_centroids crosses in
  indices ←
    (if contains "descent" gradient_direction then
       mret (Np.nonzero (map (λ d, d <? 0)%float dotproducts))
     else if contains "ascent" gradient_direction then
       mret (Np.nonzero (map (λ d, 0 <? d)%float dotproducts))
     else raise (mode_error gradient_direction));
  orig ← load_faces faces;
  faces_corrected ← alloc (Faces orig);
  cur ← load_faces faces_corrected;
  rows ← lift (Np.take_rows cur indices);
  cur ← load_faces faces_corrected;
  new ← lift (Np.put_rows cur indices (map reversed rows));
  store faces_corrected (Faces new);;
  mret faces_corrected.

End MarchingCubes.

(** ** The specification's formulas, face by face *)

Module Spec.

Section Spec.

Context {lib : Collaborators}.

(** "computes a = v0 - v1, b = v0 - v2": the norm of [a × b] for one face. *)
Definition cross_norm (t : triangle) : float :=
  Vec.norm (Vec.cross (edge_a t) (edge_b t)).

(** "area contribution = ‖a × b‖ / 2; sums over all Faces", the halving
    applied to the sum. *)
Definition area (ts : list triangle) : float :=
  (Np.sum (map cross_norm ts) / 2)%float.

(** "samples the three gradient fields at that centroid", "normalizes the
    interpolated gradient vector and the face's geometric normal",
    "computes their dot product". *)
Definition face_dot (grads : ndarray * ndarray * ndarray) (t : triangle) : float :=
  let '(grad_x, grad_y, grad_z) := grads in
  let c := centroid t in
  let g := (map_coordinate grad_x c, map_coordinate grad_y c,
            map_coordinate grad_z c) in
  Vec.sum (Vec.mul (Vec.normalize g)
                   (Vec.normalize (Vec.cross (edge_a t) (edge_b t)))).

Inductive mode := Descent | Ascent.

(** "in descent mode a negative dot product marks the face as mis-oriented;
    in ascent mode, a positive dot product marks it mis-oriented". *)
Definition mis_oriented (m : mode) (d : float) : bool :=
  match m with
  | Descent => (d <? 0)%float
  | Ascent => (0 <? d)%float
  end.

Definition opposite (m : mode) : mode :=
  match m with Descent => Ascent | Ascent => Descent end.

(** The documented value of the [gradient_direction] argument for a mode. *)
Definition keyword (m : mode) : string :=
  match m with Descent => "descent" | Ascent => "ascent" end.

(** "Mis-oriented faces have their 3 indices reversed in a copy of the
    Faces sequence; ... all correctly-oriented faces are left untouched." *)
Definition orient (m : mode) (dots : list float) (faces : list face) : list face :=
  zip_with (λ d f, if mis_oriented m d then reversed f else f) dots faces.

(** The collaborator calls of one orientation correction, in order. *)
Definition orientation_calls : list event :=
  [CallGradient; CallMapCoordinates; CallMapCoordinates; CallMapCoordinates].

(** The mode a [gradient_direction] string selects in the code. *)
Definition selected (gradient_direction : string) : option mode :=
  if contains "descent" gradient_direction then Some Descent
  else if contains "ascent" gradient_direction then Some Ascent
  else None.

(** "Invariant: every index in every Face is a valid position in Vertices",
    with the positions Python accepts: [-V <= i < V]. *)
Definition valid_index (n : nat) (i : Z) : bool :=
  (- Z.of_nat n <=? i)%Z && (i <? Z.of_nat n)%Z.

Definition valid_face (n : nat) (f : face) : bool :=
  valid_index n f.1.1 && valid_index n f.1.2 && valid_index n f.2.

Definition valid_mesh (verts : list vec3) (faces : list face) : bool :=
  forallb (valid_face (length verts)) faces.

(** The dot products of the faces of a mesh, when every index is a valid
    position in [verts]. *)
Definition dots (grads : ndarray * ndarray * ndarray) (verts : list vec3)
    (faces : list face) : result (list float) :=
  ts ← Np.take verts faces; Ok (map (face_dot grads) ts).

(** No face of the mesh is marked mis-oriented under mode [m]. *)
Definition well_oriented (m : mode) (grads : ndarray * ndarray * ndarray)
    (verts : list vec3) (faces : list face) : bool :=
  match dots grads verts faces with
  | Ok ds => forallb (λ d, negb (mis_oriented m d)) ds
  | Raise _ => false
  end.

(** Every face that the opposite mode marks is, once reversed, marked by
    mode [m]: reversing the face changes the side its dot product is on. *)
Definition reversal_flips (m : mode) (grads : ndarray * ndarray * ndarray)
    (verts : list vec3) (faces : list face) : bool :=
  forallb
    (λ f, match Np.take_face verts f, Np.take_face verts (reversed f) with
          | Ok t, Ok t' =>
              implb (mis_oriented (opposite m) (face_dot grads t))
                    (mis_oriented m (face_dot grads t'))
          | _, _ => false
          end)
    faces.

(** The gradient sampled at the centroid of a face, before normalisation. *)
Definition gradient_at (grads : ndarray * ndarray * ndarray) (t : triangle)
    : vec3 :=
  let '(grad_x, grad_y, grad_z) := grads in
  (map_coordinate grad_x (centroid t), map_coordinate grad_y (centroid t),
   map_coordinate grad_z (centroid t)).

(** [faces[:, [0, 2, 1]]] on one row: the other winding about the first
    vertex, and the same exchange on the vertices of a triangle. *)
Definition swap_winding (f : face) : face := (f.1.1, f.2, f.1.2).

Definition swap_corners (t : triangle) : triangle := (t.1.1, t.2, t.1.2).

(** "flipping ... with the opposite mode and then the original mode": the
    two calls, and the Faces sequence the second one returns. *)
Definition round_trip (m : mode) (volume : ndarray) (verts faces : loc)
    (spacing : vec3) : M (list face) :=
  flipped ← correct_mesh_orientation volume verts faces spacing
              (keyword (opposite m));
  restored ← correct_mesh_orientation volume verts flipped spacing (keyword m);
  load_faces restored.

End Spec.

End Spec.

(** ** The specification's formulas, on coordinates

    The quantities that the specification names, written out on the
    coordinates of one face from its words and without the array operations
    of the functions above; the theorems relate the two. *)

Module Formula.

(** "Faces (triples of integer indices into Vertices)": the vertex at an
    index. An index counts from the start of the array, or, when it is
    negative, from its end. *)
Definition vertex (verts : list vec3) (i : Z) : option vec3 :=
  if (0 <=? i)%Z then verts !! Z.to_nat i
  else if (- Z.of_nat (length verts) <=? i)%Z then
    verts !! Z.to_nat (Z.of_nat (length verts) + i)
  else None.

(** "For each Face (v0, v1, v2)": the three vertices of a face, when "every
    index in every Face is a valid position in Vertices". *)
Definition corners (verts : list vec3) (f : face) : option triangle :=
  let '(i0, i1, i2) := f in
  v0 ← vertex verts i0;
  v1 ← vertex verts i1;
  v2 ← vertex verts i2;
  Some (v0, v1, v2).

(** "computes a = v0 − v1, b = v0 − v2" and the cross product [a × b]. *)
Definition cross_product (t : triangle) : vec3 :=
  let '((x0, y0, z0), (x1, y1, z1), (x2, y2, z2)) := t in
  let '(a0, a1, a2) := (x0 - x1, y0 - y1, z0 - z1)%float in
  let '(b0, b1, b2) := (x0 - x2, y0 - y2, z0 - z2)%float in
  (a1 * b2 - a2 * b1, a2 * b0 - a0 * b2, a0 * b1 - a1 * b0)%float.

(** The Euclidean norm. *)
Definition length3 (u : vec3) : float :=
  let '(x, y, z) := u in sqrt (x * x + y * y + z * z).

(** "‖a × b‖": twice the area of the face. *)
Definition cross_length (t : triangle) : float := length3 (cross_product t).

(** A vector of three zeros, of either sign. *)
Definition zero3 (u : vec3) : bool :=
  let '(x, y, z) := u in (x =? 0)%float && (y =? 0)%float && (z =? 0)%float.

(** The centroid of a face: the mean of its three vertices. *)
Definition centre (t : triangle) : vec3 :=
  let '((x0, y0, z0), (x1, y1, z1), (x2, y2, z2)) := t in
  ((x0 + x1 + x2) / 3, (y0 + y1 + y2) / 3, (z0 + z1 + z2) / 3)%float.

(** A vector divided by its norm. *)
Definition unit3 (u : vec3) : vec3 :=
  let '(x, y, z) := u in
  (x / length3 u, y / length3 u, z / length3 u)%float.

Definition dot3 (u v : vec3) : float :=
  let '(x, y, z) := u in
  let '(x', y', z') := v in
  (x * x' + y * y' + z * z')%float.

(** "samples the three gradient fields at that centroid", "normalizes the
    interpolated gradient vector and the face's geometric normal",
    "computes their dot product". *)
Definition direction {lib : Collaborators} (gx gy gz : ndarray) (t : triangle)
    : float :=
  let c := centre t in
  dot3 (unit3 (map_coordinate gx c, map_coordinate gy c, map_coordinate gz c))
       (unit3 (cross_product t)).

(** A face with "its 3 indices reversed", and its vertices in that order. *)
Definition turned (t : triangle) : triangle :=
  let '(v0, v1, v2) := t in (v2, v1, v0).

(** [v] is [-u], the two zeros taken as one number. *)
Definition opposite3 (u v : vec3) : bool :=
  let '(x, y, z) := u in
  let '(x', y', z') := v in
  (x' =? - x)%float && (y' =? - y)%float && (z' =? - z)%float.

(** Reversing the face changes nothing in the arithmetic but the sign: the
    centroid computed from the reversed face is the centroid of the face,
    bit for bit, and the cross product computed from the reversed face is
    the negative of the cross product of the face. In exact arithmetic every
    face is so; in binary64, a face is when the roundings on the two sides
    agree. *)
Definition reverses_exactly (t : triangle) : Prop :=
  centre (turned t) = centre t ∧
  opposite3 (cross_product t) (cross_product (turned t)) = true.

(** "sums over all Faces": [total] is a sum of the terms of [l], each term
    once and every addition a binary64 addition, in some order and some
    bracketing; the sum of no term is 0. *)
Inductive Adds : list float → float → Prop :=
  | adds_nil : Adds [] 0%float
  | adds_one x : Adds [x] x
  | adds_plus l1 l2 s1 s2 :
      Adds l1 s1 → Adds l2 s2 → Adds (l1 ++ l2) (s1 + s2)%float
  | adds_perm l1 l2 s : l1 ≡ₚ l2 → Adds l1 s → Adds l2 s.

(** The eight running sums add up the terms of [l], each term once. *)
Definition lanes_add (r : Np.lanes) (l : list float) : Prop :=
  let '(r0, r1, r2, r3, r4, r5, r6, r7) := r in
  ∃ l0 l1 l2 l3 l4 l5 l6 l7,
    Adds l0 r0 ∧ Adds l1 r1 ∧ Adds l2 r2 ∧ Adds l3 r3 ∧
    Adds l4 r4 ∧ Adds l5 r5 ∧ Adds l6 r6 ∧ Adds l7 r7 ∧
    l ≡ₚ l0 ++ l1 ++ l2 ++ l3 ++ l4 ++ l5 ++ l6 ++ l7.

End Formula.

(** ** Concrete collaborators and meshes *)

Module Examples.

Definition full (shape : list nat) (c : float) : ndarray :=
  NdArray shape (replicate (foldr Nat.mul 1%nat shape) c).

(** The gradient of the ramp [volume[i, j, k] = k] at unit spacing: two
    fields of zeros and a field of ones. *)
Definition ramp_gradient (volume : ndarray) (spacing : vec3)
    : result (ndarray * ndarray * ndarray) :=
  if (Np.ndim volume =? 3)%nat then
    Ok (full (Np.shape volume) 0%float, full (Np.shape volume) 0%float,
        full (Np.shape volume) 1%float)
  else Raise (ValueError "invalid number of arguments").

(** Sampling a constant field gives its constant. *)
Definition sample_constant (input : ndarray) (c : vec3) : float :=
  hd 0%float (Np.data input).

(** The cell iterator on the cell of Scenario A: one triangle that cuts the
    three edges next to the high corner. *)
Definition corner_cell (volume : ndarray) (level : float) (spacing : vec3)
    : list triangle :=
  [((0.5, 0, 0), (0, 0.5, 0), (0, 0, 0.5))%float].

Definition ramp : Collaborators := {|
  gradient := ramp_gradient;
  map_coordinate := sample_constant;
  iterate_and_store_3d := corner_cell;
|}.

(** A cell iterator that finds three triangles: the triangle of
    [corner_cell], a triangle that repeats a corner, and a triangle that
    shares two corners with the first, one of them written with a negative
    zero. *)
Definition fan_cells (volume : ndarray) (level : float) (spacing : vec3)
    : list triangle :=
  [((0.5, 0, 0), (0, 0.5, 0), (0, 0, 0.5));
   ((0, 0.5, 0), (0, 0.5, 0), (0, 0, 0.5));
   ((0.5, neg_zero, 0), (0, 0, 0.5), (0.5, 0.5, 0.5))]%float.

Definition fan : Collaborators := {|
  gradient := ramp_gradient;
  map_coordinate := sample_constant;
  iterate_and_store_3d := fan_cells;
|}.

(** A cell iterator that finds nothing but a triangle that repeats a
    corner. *)
Definition pinched_cell (volume : ndarray) (level : float) (spacing : vec3)
    : list triangle :=
  [((0, 0.5, 0), (0, 0.5, 0), (0, 0, 0.5))]%float.

Definition pinched : Collaborators := {|
  gradient := ramp_gradient;
  map_coordinate := sample_constant;
  iterate_and_store_3d := pinched_cell;
|}.

(** The three gradient fields of the ramp on a 3 x 3 x 3 grid. *)
Definition ramp_fields : ndarray * ndarray * ndarray :=
  (full [3; 3; 3]%nat 0%float, full [3; 3; 3]%nat 0%float,
   full [3; 3; 3]%nat 1%float).

(** [volume[i, j, k] = k] on a 3 x 3 x 3 grid. *)
Definition ramp_volume : ndarray :=
  NdArray [3; 3; 3]%nat
    (concat (replicate 9 [0; 1; 2]%float)).

(** The 2 x 2 x 2 volume of Scenario A: one corner at 1, the rest at 0. *)
Definition corner_volume : ndarray :=
  NdArray [2; 2; 2]%nat [1; 0; 0; 0; 0; 0; 0; 0]%float.

(** A 2 x 2 image: not a volume. *)
Definition flat_image : ndarray :=
  NdArray [2; 2]%nat [1; 0; 0; 0]%float.

Definition unit_spacing : vec3 := (1, 1, 1)%float.

Definition tetra_verts : list vec3 :=
  [(0, 0, 0); (1, 0, 0); (0, 1, 0); (0, 0, 1)]%float.

(** Two faces in the plane [z = 0], wound in opposite senses, and one face
    whose normal has no component along the gradient. *)
Definition tetra_faces : list face := [(0, 1, 2); (0, 2, 1); (0, 1, 3)]%Z.

(** The faces of [tetra_faces] that descent mode leaves as they are. *)
Definition oriented_faces : list face := [(0, 1, 2); (0, 1, 3)]%Z.

(** One proper face, one face that repeats a vertex, one face of a single
    vertex. *)
Definition degenerate_faces : list face := [(0, 1, 2); (0, 0, 3); (1, 1, 1)]%Z.

(** Ten faces over the tetrahedron, one of them with an index counted from
    the end and one that repeats a vertex: enough for the unrolled loop of
    the sum. *)
Definition ten_faces : list face :=
  [(0, 1, 2); (0, 2, 1); (0, 1, 3); (0, 3, 1); (0, 2, 3);
   (0, 3, 2); (1, 2, 3); (1, 3, -2); (0, 0, 3); (3, 2, 1)]%Z.

Definition ten_triangles : list triangle :=
  Eval vm_compute in
    default [] (mapM (Formula.corners tetra_verts) ten_faces).

(** A sliver with vertices [(0, 0, 0)], [(0.1, 0.3, 0)] and [(0.5, 1.5, 1)]
    (the doubles nearest to 0.1 and 0.3): its normal is, up to rounding, at
    right angles to the gradient of the ramp. *)
Definition sliver_verts : list vec3 :=
  [(0, 0, 0); (0x1.999999999999ap-4, 0x1.3333333333333p-2, 0); (0.5, 1.5, 1)]%float.

Definition sliver_faces : list face := [(0, 1, 2)]%Z.

Definition mesh_state (verts : list vec3) (faces : list face) : state :=
  State (<[2%positive := Faces faces]> (<[1%positive := Verts verts]> ∅)) [].


(** A face that names a vertex the tetrahedron does not have. *)
Definition stray_faces : list face := [(0, 1, 2); (0, 4, 1)]%Z.

(** As [mesh_state], with a second Faces array at reference 3. *)
Definition two_faces_state (verts : list vec3) (faces faces' : list face)
    : state :=
  State (<[3%positive := Faces faces']>
           (<[2%positive := Faces faces]> (<[1%positive := Verts verts]> ∅)))
        [].

(** The corner volume with one sample that is not a number. *)
Definition nan_volume : ndarray :=
  NdArray [2; 2; 2]%nat [1; 0; 0; nan; 0; 0; 0; 0]%float.

(** A volume with three axes and no sample. *)
Definition empty_volume : ndarray := NdArray [0; 2; 2]%nat [].

End Examples.


(** * Properties *)

(** ** Binary64 arithmetic *)

Module Float64Facts.

Import Float64.

Lemma SFltb_zero x : SFltb x (S754_zero false) = false ↔ not_negative x.
Proof.
  destruct x as [[]|[]| |[] m e]; unfold SFltb; simpl;
    split; intros Hx; try exact I; try reflexivity;
    try discriminate; try contradiction.
Qed.

Lemma round_aux_not_negative m e l :
  not_negative (binary_round_aux prec emax false m e l).
Proof.
  unfold binary_round_aux.
  destruct (shr_fexp prec emax m e l) as [mrs e1].
  destruct (shr_fexp prec emax _ e1 loc_Exact) as [mrs' e2].
  destruct (shr_m mrs'); simpl; auto.
  destruct (Z.leb e2 _); simpl; auto.
Qed.

Lemma SFsqrt_not_negative x : not_negative (SFsqrt prec emax x).
Proof.
  destruct x as [[]|[]| |[] m e]; simpl; auto.
  destruct (SFsqrt_core_binary prec emax (Z.pos m) e) as [[mz ez] lz].
  apply round_aux_not_negative.
Qed.

Lemma SFadd_not_negative x y :
  not_negative x → not_negative y → not_negative (SFadd prec emax x y).
Proof.
  destruct x as [[]|[]| |[] mx ex], y as [[]|[]| |[] my ey];
    simpl; try tauto.
  intros _ _. unfold binary_round.
  destruct (shl_align _ _ _) as [mz ez].
  apply round_aux_not_negative.
Qed.

Lemma SFdiv_not_negative x m e :
  not_negative x → not_negative (SFdiv prec emax x (S754_finite false m e)).
Proof.
  destruct x as [[]|[]| |[] mx ex]; simpl; try tauto.
  intros _.
  destruct (SFdiv_core_binary prec emax (Z.pos mx) ex (Z.pos m) e)
    as [[mz ez] lz].
  apply round_aux_not_negative.
Qed.

Lemma SFcompare_antisym x y :
  SFcompare y x = CompOpp <$> SFcompare x y.
Proof.
  destruct x as [[]|[]| |[] mx ex], y as [[]|[]| |[] my ey];
    simpl; try reflexivity.
  all: assert (He : Z.compare ey ex = CompOpp (Z.compare ex ey))
         by apply Z.compare_antisym;
       assert (Hm : Pos.compare_cont Eq my mx
                    = CompOpp (Pos.compare_cont Eq mx my))
         by (symmetry; apply (Pos.compare_cont_antisym mx my Eq));
       rewrite He, Hm;
       destruct (Z.compare ex ey); simpl; try reflexivity;
       destruct (Pos.compare_cont Eq mx my); reflexivity.
Qed.

Lemma SFcompare_refl x : SFcompare x x = Some Eq ∨ x = S754_nan.
Proof.
  destruct x as [[]|[]| |[] m e]; simpl; auto;
    rewrite Z.compare_refl, Pos.compare_cont_refl; auto.
Qed.

Lemma SFcompare_nan x y :
  SFcompare x y = None ↔ x = S754_nan ∨ y = S754_nan.
Proof.
  destruct x as [[]|[]| |[] mx ex], y as [[]|[]| |[] my ey]; simpl;
    split; intros Hxy; auto; try discriminate;
    destruct Hxy; discriminate.
Qed.

Lemma SFcompare_eq_r x y z :
  SFcompare x y = Some Eq → SFcompare z x = SFcompare z y.
Proof.
  destruct x as [[]|[]| |[] mx ex], y as [[]|[]| |[] my ey];
    simpl; try congruence;
    try (destruct z as [[]|[]| |[] mz ez]; reflexivity).
  all: destruct (Z.compare ex ey) eqn:He; try congruence;
       destruct (Pos.compare_cont Eq mx my) eqn:Hm; simpl; try congruence;
       apply Z.compare_eq in He; apply Pos.compare_eq in Hm; subst;
       reflexivity.
Qed.

(** *** The primitive operations, through their specification *)

Lemma ltb_cmp x y : (x <? y)%float = true ↔ cmp x y = Some Lt.
Proof.
  rewrite (FloatAxioms.ltb_spec x y). unfold SFltb, cmp.
  destruct (SFcompare _ _) as [[]|]; split; congruence.
Qed.

Lemma leb_cmp x y :
  (x <=? y)%float = true ↔ cmp x y = Some Lt ∨ cmp x y = Some Eq.
Proof.
  rewrite (FloatAxioms.leb_spec x y). unfold SFleb, cmp.
  destruct (SFcompare _ _) as [[]|]; split; intros Hc; auto;
    try discriminate; destruct Hc; discriminate.
Qed.

Lemma eqb_cmp x y : (x =? y)%float = true ↔ cmp x y = Some Eq.
Proof.
  rewrite (FloatAxioms.eqb_spec x y). unfold SFeqb, cmp.
  destruct (SFcompare _ _) as [[]|]; split; congruence.
Qed.

Lemma is_nan_cmp x : is_nan x = true ↔ Prim2SF x = S754_nan.
Proof.
  unfold is_nan. rewrite (FloatAxioms.eqb_spec x x). unfold SFeqb.
  destruct (SFcompare_refl (Prim2SF x)) as [Hr | Hr]; rewrite Hr; simpl.
  - split; [discriminate |].
    intros Hn. rewrite Hn in Hr. discriminate.
  - split; auto.
Qed.

Lemma cmp_antisym x y : cmp y x = CompOpp <$> cmp x y.
Proof. apply SFcompare_antisym. Qed.

Lemma cmp_nan x y : cmp x y = None ↔ is_nan x = true ∨ is_nan y = true.
Proof. unfold cmp. rewrite SFcompare_nan, !is_nan_cmp. reflexivity. Qed.

Lemma cmp_refl x : is_nan x = false → cmp x x = Some Eq.
Proof.
  intros Hx. destruct (SFcompare_refl (Prim2SF x)) as [Hr | Hr]; [exact Hr |].
  apply is_nan_cmp in Hr. congruence.
Qed.

Lemma cmp_eq_r x y z : cmp x y = Some Eq → cmp z x = cmp z y.
Proof. apply SFcompare_eq_r. Qed.

Lemma ltb_zero x : (x <? 0)%float = false ↔ not_negative (Prim2SF x).
Proof. rewrite (FloatAxioms.ltb_spec x 0). apply SFltb_zero. Qed.

Lemma sqrt_not_negative x : (sqrt x <? 0)%float = false.
Proof. apply ltb_zero. rewrite FloatAxioms.sqrt_spec. apply SFsqrt_not_negative. Qed.

Lemma add_not_negative x y :
  (x <? 0)%float = false → (y <? 0)%float = false →
  (x + y <? 0)%float = false.
Proof.
  rewrite !ltb_zero, FloatAxioms.add_spec. apply SFadd_not_negative.
Qed.

Lemma half_not_negative x :
  (x <? 0)%float = false → (x / 2 <? 0)%float = false.
Proof.
  rewrite !ltb_zero, FloatAxioms.div_spec.
  change (Prim2SF 2) with (S754_finite false 4503599627370496 (-51)).
  apply SFdiv_not_negative.
Qed.

Lemma eqb_sym x y : (x =? y)%float = (y =? x)%float.
Proof.
  rewrite (FloatAxioms.eqb_spec x y), (FloatAxioms.eqb_spec y x).
  unfold SFeqb. rewrite (SFcompare_antisym (Prim2SF x) (Prim2SF y)).
  destruct (SFcompare (Prim2SF x) (Prim2SF y)) as [[]|]; reflexivity.
Qed.

Lemma vec3_eqb_sym u v : vec3_eqb u v = vec3_eqb v u.
Proof.
  destruct u as [[u0 u1] u2], v as [[v0 v1] v2]. unfold vec3_eqb.
  rewrite (eqb_sym u0 v0), (eqb_sym u1 v1), (eqb_sym u2 v2). reflexivity.
Qed.

End Float64Facts.

(** ** Array operations *)

Module NpFacts.

Import Np.

Lemma getitem_valid {A} (l : list A) i :
  Spec.valid_index (length l) i = true → ∃ x, getitem l i = Ok x.
Proof.
  unfold Spec.valid_index, getitem. intros Hi.
  apply andb_true_iff in Hi as [Hlo Hhi].
  apply Z.leb_le in Hlo. apply Z.ltb_lt in Hhi.
  set (j := if (i <? 0)%Z then (i + Z.of_nat (length l))%Z else i).
  assert (Hj : (0 ≤ j < Z.of_nat (length l))%Z).
  { unfold j. destruct (Z.ltb_spec i 0); lia. }
  replace ((0 <=? j)%Z && (j <? Z.of_nat (length l))%Z) with true.
  - destruct (lookup_lt_is_Some_2 l (Z.to_nat j)) as [x Hx]; [lia|].
    rewrite Hx. eauto.
  - symmetry. apply andb_true_iff. split; [apply Z.leb_le | apply Z.ltb_lt]; lia.
Qed.

Lemma take_face_valid verts f :
  Spec.valid_face (length verts) f = true → ∃ t, take_face verts f = Ok t.
Proof.
  destruct f as [[i0 i1] i2]. unfold Spec.valid_face. simpl.
  rewrite !andb_true_iff. intros [[H0 H1] H2].
  destruct (getitem_valid verts i0 H0) as [v0 E0].
  destruct (getitem_valid verts i1 H1) as [v1 E1].
  destruct (getitem_valid verts i2 H2) as [v2 E2].
  rewrite E0, E1, E2. simpl. eauto.
Qed.

Lemma take_valid verts faces :
  Spec.valid_mesh verts faces = true → ∃ ts, take verts faces = Ok ts.
Proof.
  unfold Spec.valid_mesh. induction faces as [|f fs IH]; simpl; [eauto|].
  rewrite andb_true_iff. intros [Hf Hfs].
  destruct (take_face_valid verts f Hf) as [t Ht].
  destruct (IH Hfs) as [ts Hts]. rewrite Ht, Hts. simpl. eauto.
Qed.

Lemma take_length verts faces ts :
  take verts faces = Ok ts → length ts = length faces.
Proof.
  revert ts. induction faces as [|f fs IH]; simpl; intros ts Hts.
  - injection Hts as <-. reflexivity.
  - destruct (take_face verts f) as [t|e]; simpl in Hts; [|discriminate].
    destruct (take verts fs) as [ts'|e]; simpl in Hts; [|discriminate].
    injection Hts as <-. simpl. f_equal. apply IH. reflexivity.
Qed.

Lemma take_lookup verts faces ts i f :
  take verts faces = Ok ts → faces !! i = Some f →
  ∃ t, take_face verts f = Ok t ∧ ts !! i = Some t.
Proof.
  revert ts i. induction faces as [|f' fs IH]; simpl; intros ts i Hts Hi.
  - rewrite lookup_nil in Hi. discriminate.
  - destruct (take_face verts f') as [t'|e] eqn:Ht; simpl in Hts; [|discriminate].
    destruct (take verts fs) as [ts'|e]; simpl in Hts; [|discriminate].
    injection Hts as <-. destruct i as [|i]; simpl in *.
    + injection Hi as <-. eauto.
    + eapply IH; eauto.
Qed.

Lemma take_rows_nonzero {A} (pre suf : list A) mask :
  length mask = length suf →
  take_rows (pre ++ suf) (nonzero_from (length pre) mask) = Ok (select mask suf).
Proof.
  revert pre suf. induction mask as [|m ms IH]; intros pre [|x xs] Hlen;
    simpl in *; try discriminate; try reflexivity.
  injection Hlen as Hlen.
  specialize (IH (pre ++ [x]) xs Hlen).
  rewrite <- app_assoc, length_app in IH. simpl in IH.
  rewrite Nat.add_1_r in IH.
  destruct m; simpl.
  - rewrite list_lookup_middle by reflexivity. rewrite IH. reflexivity.
  - exact IH.
Qed.

Lemma put_rows_nonzero {A} (g : A → A) (pre suf : list A) mask :
  length mask = length suf →
  put_rows (pre ++ suf) (nonzero_from (length pre) mask)
           (map g (select mask suf))
  = Ok (pre ++ zip_with (λ (m : bool) x, if m then g x else x) mask suf).
Proof.
  revert pre suf. induction mask as [|m ms IH]; intros pre [|x xs] Hlen;
    simpl in *; try discriminate; try reflexivity.
  injection Hlen as Hlen.
  destruct m; simpl.
  - destruct (decide (length pre < length (pre ++ x :: xs))) as [_|Hn].
    + replace (<[length pre:=g x]> (pre ++ x :: xs))
        with ((pre ++ [g x]) ++ xs).
      * specialize (IH (pre ++ [g x]) xs Hlen).
        rewrite length_app in IH. simpl in IH.
        rewrite Nat.add_1_r in IH. rewrite IH.
        rewrite <- app_assoc. reflexivity.
      * rewrite <- app_assoc. simpl.
        rewrite insert_app_r_alt by lia.
        rewrite Nat.sub_diag. reflexivity.
    + exfalso. apply Hn. rewrite length_app. simpl. lia.
  - specialize (IH (pre ++ [x]) xs Hlen).
    rewrite <- app_assoc, length_app in IH. simpl in IH.
    rewrite Nat.add_1_r in IH. rewrite IH.
    rewrite <- app_assoc. reflexivity.
Qed.

(** [faces_corrected[indices] = faces_corrected[indices, ::-1]] for the
    indices of a mask as long as the array: the marked rows are replaced,
    the others kept. *)
Lemma reverse_marked_rows {A} (g : A → A) (arr : list A) mask :
  length mask = length arr →
  ∃ rows,
    take_rows arr (nonzero mask) = Ok rows ∧
    put_rows arr (nonzero mask) (map g rows)
    = Ok (zip_with (λ (m : bool) x, if m then g x else x) mask arr).
Proof.
  intros Hlen. exists (select mask arr). split.
  - apply (take_rows_nonzero [] arr mask Hlen).
  - apply (put_rows_nonzero g [] arr mask Hlen).
Qed.

End NpFacts.

(** ** The array operations against the formulas of the specification *)

Module FormulaFacts.

Import Formula.

Lemma vertex_getitem verts i v :
  vertex verts i = Some v → Np.getitem verts i = Ok v.
Proof.
  unfold vertex, Np.getitem. set (n := Z.of_nat (length verts)).
  destruct (Z.leb_spec 0 i) as [Hpos | Hneg].
  - intros Hv. pose proof (lookup_lt_Some _ _ _ Hv) as Hlt.
    destruct (Z.ltb_spec i 0) as [|_]; [lia|].
    destruct (Z.leb_spec 0 i) as [_|]; [|lia].
    destruct (Z.ltb_spec i n) as [_|]; [|lia].
    simpl. rewrite Hv. reflexivity.
  - destruct (Z.leb_spec (- n) i) as [Hlo | Hlo]; [|discriminate].
    intros Hv. pose proof (lookup_lt_Some _ _ _ Hv) as Hlt.
    destruct (Z.ltb_spec i 0) as [_|]; [|lia].
    destruct (Z.leb_spec 0 (i + n)) as [_|]; [|lia].
    destruct (Z.ltb_spec (i + n) n) as [_|]; [|lia].
    simpl. rewrite (Z.add_comm i n), Hv. reflexivity.
Qed.

Lemma corners_take_face verts f t :
  corners verts f = Some t → Np.take_face verts f = Ok t.
Proof.
  destruct f as [[i0 i1] i2]. unfold corners, Np.take_face.
  destruct (vertex verts i0) as [v0|] eqn:H0; [|discriminate].
  destruct (vertex verts i1) as [v1|] eqn:H1; [|discriminate].
  destruct (vertex verts i2) as [v2|] eqn:H2; [|discriminate].
  simpl. intros [= <-].
  rewrite (vertex_getitem _ _ _ H0), (vertex_getitem _ _ _ H1),
    (vertex_getitem _ _ _ H2). reflexivity.
Qed.

(** [verts[faces]] gives, row by row, the three vertices of each face. *)
Lemma corners_take verts faces ts :
  Forall2 (λ f t, corners verts f = Some t) faces ts →
  Np.take verts faces = Ok ts.
Proof.
  induction 1 as [|f t fs ts Hf _ IH]; simpl; [reflexivity|].
  rewrite (corners_take_face _ _ _ Hf), IH. reflexivity.
Qed.

Lemma corners_all verts faces :
  Forall (λ f, is_Some (corners verts f)) faces →
  ∃ ts, Forall2 (λ f t, corners verts f = Some t) faces ts.
Proof.
  induction 1 as [|f fs [t Ht] _ [ts IH]]; [exists []; constructor|].
  exists (t :: ts). constructor; assumption.
Qed.

Lemma corners_lookup verts faces ts i f t :
  Forall2 (λ f t, corners verts f = Some t) faces ts →
  faces !! i = Some f → corners verts f = Some t → ts !! i = Some t.
Proof.
  intros Hts Hf Ht.
  destruct (Forall2_lookup_l _ _ _ _ _ Hts Hf) as (t' & Hi & Ht').
  congruence.
Qed.

Lemma corners_reversed verts f t :
  corners verts f = Some t → corners verts (reversed f) = Some (turned t).
Proof.
  destruct f as [[i0 i1] i2]. unfold corners, reversed. simpl.
  destruct (vertex verts i0) as [v0|]; [|discriminate].
  destruct (vertex verts i1) as [v1|]; [|discriminate].
  destruct (vertex verts i2) as [v2|]; [|discriminate].
  simpl. intros [= <-]. reflexivity.
Qed.

(** The norm of the cross product of the two edge columns is the
    [‖a × b‖] of the specification. *)
Lemma cross_norm_cross_length t : Spec.cross_norm t = cross_length t.
Proof. destruct t as [[[[x0 y0] z0] [[x1 y1] z1]] [[x2 y2] z2]]. reflexivity. Qed.

Lemma centroid_centre t : centroid t = centre t.
Proof. destruct t as [[[[x0 y0] z0] [[x1 y1] z1]] [[x2 y2] z2]]. reflexivity. Qed.

(** The dot product of the array pipeline is the dot product of the
    specification. *)
Lemma face_dot_direction {lib : Collaborators} gx gy gz t :
  Spec.face_dot (gx, gy, gz) t = direction gx gy gz t.
Proof. destruct t as [[[[x0 y0] z0] [[x1 y1] z1]] [[x2 y2] z2]]. reflexivity. Qed.

Lemma zero3_is_zero u : zero3 u = Vec.is_zero u.
Proof. destruct u as [[x y] z]. reflexivity. Qed.

End FormulaFacts.

(** ** Orientation correction *)

Module OrientationFacts.

Import Spec.

Section Orientation.

Context {lib : Collaborators}.

Lemma run_bind {A B} (m : M A) (f : A → M B) s :
  (m ≫= f) s
  = match m s with
    | (Ok a, s') => f a s'
    | (Raise e, s') => (Raise e, s')
    end.
Proof. reflexivity. Qed.

(** The vectorised pipeline computes, row by row, the dot product of the
    specification. *)
Lemma dotproducts_face_dot gx gy gz (ts : list triangle) :
  zip_with (λ g c, Vec.sum (Vec.mul g c))
    (map Vec.normalize
       (Np.c_ (map (map_coordinate gx) (map centroid ts))
              (map (map_coordinate gy) (map centroid ts))
              (map (map_coordinate gz) (map centroid ts))))
    (map Vec.normalize (zip_with Vec.cross (map edge_a ts) (map edge_b ts)))
  = map (face_dot (gx, gy, gz)) ts.
Proof.
  unfold Np.c_. induction ts as [|t ts IH]; simpl; [reflexivity|].
  f_equal. exact IH.
Qed.

Lemma orient_mask m ds (fs : list face) :
  zip_with (λ (b : bool) f, if b then reversed f else f)
           (map (mis_oriented m) ds) fs
  = orient m ds fs.
Proof.
  unfold orient. revert fs. induction ds as [|d ds IH]; intros [|f fs];
    simpl; try reflexivity.
  f_equal. apply IH.
Qed.

(** What a call does on a store that holds the mesh, when the gradient is
    available and every face index is a position in [verts]. *)
Lemma run_correct_mesh_orientation volume verts faces spacing gd s vs fs grads ts :
  heap s !! verts = Some (Verts vs) →
  heap s !! faces = Some (Faces fs) →
  gradient volume spacing = Ok grads →
  Np.take vs fs = Ok ts →
  correct_mesh_orientation volume verts faces spacing gd s
  = match selected gd with
    | Some m =>
        let l := fresh (dom (heap s)) in
        (Ok l,
         State (<[l:=Faces (orient m (map (face_dot grads) ts) fs)]> (heap s))
               (trace s ++ orientation_calls))
    | None =>
        (Raise (mode_error gd), State (heap s) (trace s ++ orientation_calls))
    end.
Proof.
  intros Hverts Hfaces Hgrad Htake.
  unfold correct_mesh_orientation, np_gradient, ndi_map_coordinates.
  rewrite !run_bind. unfold log at 1, lift at 1. cbn [heap trace].
  rewrite Hgrad. destruct grads as [[gx gy] gz].
  rewrite !run_bind. unfold load_faces at 1. cbn [heap trace]. rewrite Hfaces.
  rewrite !run_bind. unfold load_verts at 1. cbn [heap trace]. rewrite Hverts.
  rewrite !run_bind. unfold lift at 1. rewrite Htake.
  rewrite !run_bind. unfold log at 1. cbn [heap trace].
  unfold mret at 1, M_ret at 1.
  rewrite !run_bind. unfold log at 1. cbn [heap trace].
  unfold mret at 1, M_ret at 1.
  rewrite !run_bind. unfold log at 1. cbn [heap trace].
  unfold mret at 1, M_ret at 1.
  rewrite dotproducts_face_dot.
  rewrite <- !app_assoc. 
  change ([CallGradient] ++ [CallMapCoordinates] ++ [CallMapCoordinates]
          ++ [CallMapCoordinates]) with orientation_calls.
  set (ds := map (face_dot (gx, gy, gz)) ts).
  assert (Hlen : ∀ m, length (map (mis_oriented m) ds) = length fs).
  { intros m. unfold ds. rewrite !length_map. eapply NpFacts.take_length, Htake. }
  assert (Hok : ∀ m,
    (indices ← mret (Np.nonzero (map (mis_oriented m) ds));
     orig ← load_faces faces;
     faces_corrected ← alloc (Faces orig);
     cur ← load_faces faces_corrected;
     rows ← lift (Np.take_rows cur indices);
     cur ← load_faces faces_corrected;
     new ← lift (Np.put_rows cur indices (map reversed rows));
     store faces_corrected (Faces new);;
     mret faces_corrected) (State (heap s) (trace s ++ orientation_calls))
    = (Ok (fresh (dom (heap s))),
       State (<[fresh (dom (heap s)):=Faces (orient m ds fs)]> (heap s))
             (trace s ++ orientation_calls))).
  { intros m.
    destruct (NpFacts.reverse_marked_rows reversed fs _ (Hlen m))
      as (rows & Hrows & Hput).
    rewrite orient_mask in Hput.
    rewrite run_bind. unfold mret at 1, M_ret at 1.
    rewrite run_bind. unfold load_faces at 1. cbn [heap trace]. rewrite Hfaces.
    rewrite run_bind. unfold alloc at 1. cbn [heap trace].
    rewrite run_bind. unfold load_faces at 1. cbn [heap trace].
    rewrite lookup_insert_eq.
    rewrite run_bind. unfold lift at 1. rewrite Hrows.
    rewrite run_bind. unfold load_faces at 1. cbn [heap trace].
    rewrite lookup_insert_eq.
    rewrite run_bind. unfold lift at 1. rewrite Hput.
    rewrite run_bind. unfold store at 1. cbn [heap trace].
    rewrite insert_insert_eq. reflexivity. }
  unfold selected.
  destruct (contains "descent" gd).
  - apply (Hok Descent).
  - destruct (contains "ascent" gd).
    + apply (Hok Ascent).
    + rewrite run_bind. reflexivity.
Qed.

End Orientation.

End OrientationFacts.

Import Spec.

Section OrientationClaims.

Context {lib : Collaborators}.

Lemma selected_keyword m : selected (keyword m) = Some m.
Proof. destruct m; reflexivity. Qed.

Lemma orient_length m ds (fs : list face) :
  length ds = length fs → length (orient m ds fs) = length fs.
Proof. intros Hlen. unfold orient. rewrite length_zip_with. lia. Qed.

Lemma orient_lookup m grads (ts : list triangle) (fs : list face) i f t :
  fs !! i = Some f → ts !! i = Some t →
  orient m (map (face_dot grads) ts) fs !! i
  = Some (if mis_oriented m (face_dot grads t) then reversed f else f).
Proof.
  intros Hf Ht. unfold orient.
  rewrite lookup_zip_with, list_lookup_fmap, Hf, Ht. reflexivity.
Qed.

(** C1: for every volume, every mesh whose face indices are positions in
    the vertex array, and each of the two documented modes,
    [correct_mesh_orientation] returns a Faces array of the length of the
    input in which face [(i0, i1, i2)] has become [(i2, i1, i0)] when its
    dot product is negative in descent mode, positive in ascent mode, and
    is [(i0, i1, i2)] otherwise. The dot product is that of the gradient
    sampled at the centroid of the face, divided by its norm, with the cross
    product of [v0 - v1] and [v0 - v2], divided by its norm. *)
Theorem flips_exactly_the_misoriented_faces
    volume verts faces spacing m s vs fs gx gy gz :
  heap s !! verts = Some (Verts vs) →
  heap s !! faces = Some (Faces fs) →
  gradient volume spacing = Ok (gx, gy, gz) →
  Forall (λ f, is_Some (Formula.corners vs f)) fs →
  ∃ l s' fs',
    correct_mesh_orientation volume verts faces spacing (keyword m) s
    = (Ok l, s') ∧
    heap s' !! l = Some (Faces fs') ∧
    length fs' = length fs ∧
    ∀ i i0 i1 i2 t,
      fs !! i = Some (i0, i1, i2) →
      Formula.corners vs (i0, i1, i2) = Some t →
      fs' !! i = Some (if match m with
                          | Descent => (Formula.direction gx gy gz t <? 0)%float
                          | Ascent => (0 <? Formula.direction gx gy gz t)%float
                          end
                       then (i2, i1, i0) else (i0, i1, i2)).
Proof.
  intros Hverts Hfaces Hgrad Hvalid.
  destruct (FormulaFacts.corners_all vs fs Hvalid) as [ts Hcorners].
  pose proof (FormulaFacts.corners_take vs fs ts Hcorners) as Hts.
  rewrite (OrientationFacts.run_correct_mesh_orientation
             _ _ _ _ _ _ vs fs (gx, gy, gz) ts Hverts Hfaces Hgrad Hts).
  rewrite selected_keyword. cbn zeta.
  eexists _, _, _. split; [reflexivity|]. cbn [heap].
  split; [apply lookup_insert_eq|]. split.
  - apply orient_length. rewrite length_map.
    eapply NpFacts.take_length, Hts.
  - intros i i0 i1 i2 t Hf Ht.
    pose proof (FormulaFacts.corners_lookup vs fs ts i _ t Hcorners Hf Ht)
      as Hi.
    rewrite (orient_lookup m (gx, gy, gz) ts fs i _ t Hf Hi).
    rewrite FormulaFacts.face_dot_direction. destruct m; reflexivity.
Qed.

(** C2 (amended): when the gradient of the volume is available and every
    face index is a position in the vertex array, a [gradient_direction]
    that contains neither "descent" nor "ascent" is rejected with a
    [ValueError]; the rejection comes after the gradient of the volume has
    been computed and sampled at the centroids, and leaves the store as it
    was. *)
Theorem unrecognised_mode_is_rejected
    volume verts faces spacing gd s vs fs grads :
  heap s !! verts = Some (Verts vs) →
  heap s !! faces = Some (Faces fs) →
  gradient volume spacing = Ok grads →
  valid_mesh vs fs = true →
  contains "descent" gd = false →
  contains "ascent" gd = false →
  correct_mesh_orientation volume verts faces spacing gd s
  = (Raise (mode_error gd),
     State (heap s) (trace s ++ [CallGradient; CallMapCoordinates;
                                 CallMapCoordinates; CallMapCoordinates])).
Proof.
  intros Hverts Hfaces Hgrad Hvalid Hd Ha.
  destruct (NpFacts.take_valid vs fs Hvalid) as [ts Hts].
  rewrite (OrientationFacts.run_correct_mesh_orientation
             _ _ _ _ _ _ vs fs grads ts Hverts Hfaces Hgrad Hts).
  unfold selected. rewrite Hd, Ha. reflexivity.
Qed.

(** C6: a valid call returns a new Faces array of the length of the input
    whose entries are the input triples or their reversals; the store is
    otherwise unchanged, so the vertices and faces read are not mutated. *)
Theorem returns_a_reordered_copy
    volume verts faces spacing gd m s vs fs grads :
  heap s !! verts = Some (Verts vs) →
  heap s !! faces = Some (Faces fs) →
  gradient volume spacing = Ok grads →
  valid_mesh vs fs = true →
  selected gd = Some m →
  ∃ l s' fs',
    correct_mesh_orientation volume verts faces spacing gd s = (Ok l, s') ∧
    heap s !! l = None ∧
    heap s' = <[l:=Faces fs']> (heap s) ∧
    heap s' !! verts = Some (Verts vs) ∧
    heap s' !! faces = Some (Faces fs) ∧
    length fs' = length fs ∧
    Forall2 (λ f f', f' = f ∨ f' = reversed f) fs fs'.
Proof.
  intros Hverts Hfaces Hgrad Hvalid Hsel.
  destruct (NpFacts.take_valid vs fs Hvalid) as [ts Hts].
  rewrite (OrientationFacts.run_correct_mesh_orientation
             _ _ _ _ _ _ vs fs grads ts Hverts Hfaces Hgrad Hts).
  rewrite Hsel. cbn zeta.
  assert (Hfresh : heap s !! fresh (dom (heap s)) = None).
  { apply not_elem_of_dom, is_fresh. }
  assert (Hlen : length (map (face_dot grads) ts) = length fs).
  { rewrite length_map. eapply NpFacts.take_length, Hts. }
  eexists _, _, _. split; [reflexivity|]. cbn [heap].
  split; [exact Hfresh|]. split; [reflexivity|].
  split; [|split; [|split]].
  - rewrite lookup_insert_ne; [exact Hverts | congruence].
  - rewrite lookup_insert_ne; [exact Hfaces | congruence].
  - apply orient_length, Hlen.
  - unfold orient. revert Hlen. generalize (map (face_dot grads) ts).
    clear. induction fs as [|f fs IH]; intros [|d ds] Hlen;
      simpl in *; try discriminate; constructor.
    + destruct (mis_oriented m d); auto.
    + apply IH. lia.
Qed.

(** C10: the mode check is substring containment: a [gradient_direction]
    that contains "descent" is accepted and the call does what it does for
    "descent"; one that contains "ascent" and not "descent" is accepted and
    the call does what it does for "ascent". *)
Theorem mode_check_is_substring_containment
    volume verts faces spacing gd s vs fs grads :
  heap s !! verts = Some (Verts vs) →
  heap s !! faces = Some (Faces fs) →
  gradient volume spacing = Ok grads →
  valid_mesh vs fs = true →
  (contains "descent" gd = true →
   ∃ l s',
     correct_mesh_orientation volume verts faces spacing gd s = (Ok l, s') ∧
     correct_mesh_orientation volume verts faces spacing "descent" s
     = (Ok l, s')) ∧
  (contains "ascent" gd = true → contains "descent" gd = false →
   ∃ l s',
     correct_mesh_orientation volume verts faces spacing gd s = (Ok l, s') ∧
     correct_mesh_orientation volume verts faces spacing "ascent" s
     = (Ok l, s')).
Proof.
  intros Hverts Hfaces Hgrad Hvalid.
  destruct (NpFacts.take_valid vs fs Hvalid) as [ts Hts].
  rewrite !(OrientationFacts.run_correct_mesh_orientation
              _ _ _ _ _ _ vs fs grads ts Hverts Hfaces Hgrad Hts).
  change (selected "descent") with (Some Descent).
  change (selected "ascent") with (Some Ascent).
  unfold selected. split.
  - intros ->. eauto.
  - intros Ha ->. rewrite Ha. eauto.
Qed.

End OrientationClaims.

(** ** Arithmetic on a reversed face *)

Module MirrorFacts.

Import Float64 Float64Facts Formula.

Lemma mirror_inv x y :
  mirror x y →
  (∃ s s', x = S754_zero s ∧ y = S754_zero s') ∨ y = SFopp x.
Proof.
  destruct x as [sx|sx| |sx mx ex]; simpl; auto.
  destruct y as [sy|sy| |sy my ey]; simpl; eauto.
Qed.

Lemma mirror_zero s s' : mirror (S754_zero s) (S754_zero s').
Proof. exact I. Qed.

Lemma mirror_opp x : mirror x (SFopp x).
Proof. destruct x; simpl; trivial. Qed.

Lemma SFcompare_Eq x y :
  SFcompare x y = Some Eq →
  (∃ s s', x = S754_zero s ∧ y = S754_zero s') ∨ x = y.
Proof.
  destruct x as [sx|sx| |sx mx ex], y as [sy|sy| |sy my ey]; simpl;
    try discriminate; eauto;
    try (destruct sx; discriminate); try (destruct sy; discriminate).
  - destruct sx, sy; try discriminate; auto.
  - destruct sx, sy; try discriminate;
      destruct (Z.compare ex ey) eqn:He; try discriminate;
      destruct (Pos.compare_cont Eq mx my) eqn:Hm; try discriminate;
      apply Z.compare_eq in He; apply Pos.compare_eq in Hm; subst; auto.
Qed.

Lemma eqb_opp_mirror x y :
  (y =? - x)%float = true → mirror (Prim2SF x) (Prim2SF y).
Proof.
  rewrite (FloatAxioms.eqb_spec y (- x)), FloatAxioms.opp_spec.
  unfold SFeqb.
  destruct (SFcompare (Prim2SF y) (SFopp (Prim2SF x))) as [[]|] eqn:Hc;
    try discriminate.
  intros _. apply SFcompare_Eq in Hc as [(s & s' & Hy & Hx) | Hy].
  - rewrite Hy. destruct (Prim2SF x); try discriminate. exact I.
  - rewrite Hy. apply mirror_opp.
Qed.

(** Rounding to nearest, ties to even, does not look at the sign. *)
Lemma round_aux_opp s m e l :
  binary_round_aux prec emax (negb s) m e l
  = SFopp (binary_round_aux prec emax s m e l).
Proof.
  unfold binary_round_aux.
  destruct (shr_fexp prec emax m e l) as [mrs e1].
  destruct (shr_fexp prec emax _ e1 loc_Exact) as [mrs' e2].
  destruct (shr_m mrs'); simpl; try reflexivity.
  destruct (Z.leb e2 _); reflexivity.
Qed.

Lemma SFdiv_opp_l x n :
  SFdiv prec emax (SFopp x) n = SFopp (SFdiv prec emax x n).
Proof.
  destruct x as [sx|sx| |sx mx ex], n as [sn|sn| |sn mn en]; simpl;
    try reflexivity; try (destruct sx, sn; reflexivity).
  destruct (SFdiv_core_binary prec emax (Z.pos mx) ex (Z.pos mn) en)
    as [[mz ez] lz].
  rewrite <- round_aux_opp. destruct sx, sn; reflexivity.
Qed.

Lemma SFmul_opp_r g x :
  SFmul prec emax g (SFopp x) = SFopp (SFmul prec emax g x).
Proof.
  destruct g as [sg|sg| |sg mg eg], x as [sx|sx| |sx mx ex]; simpl;
    try reflexivity; try (destruct sg, sx; reflexivity).
  rewrite <- round_aux_opp. destruct sg, sx; reflexivity.
Qed.

Lemma normalize_mirror z e :
  mirror (binary_normalize prec emax z e false)
         (binary_normalize prec emax (- z) e false).
Proof.
  destruct z as [|p|p]; simpl; [exact I | |];
    unfold binary_round; destruct (shl_align _ _ _) as [mz ez].
  - rewrite (round_aux_opp false). apply mirror_opp.
  - rewrite (round_aux_opp false).
    destruct (binary_round_aux prec emax false (Z.pos mz) ez loc_Exact)
      as [[]|[]| |[] m' e']; simpl; trivial.
Qed.

Lemma SFadd_opp x x' :
  mirror (SFadd prec emax x x') (SFadd prec emax (SFopp x) (SFopp x')).
Proof.
  destruct x as [sx|sx| |sx mx ex], x' as [sx'|sx'| |sx' mx' ex'];
    try (simpl; repeat (match goal with b : bool |- _ => destruct b end);
         simpl; trivial; fail).
  unfold SFopp, SFadd.
  set (X := cond_Zopp sx _). set (X' := cond_Zopp sx' _).
  set (Y := cond_Zopp (negb sx) _). set (Y' := cond_Zopp (negb sx') _).
  replace (Y + Y')%Z with (- (X + X'))%Z.
  - apply normalize_mirror.
  - unfold X, X', Y, Y'. destruct sx, sx'; simpl; lia.
Qed.

Lemma mirror_square x y :
  mirror x y → SFmul prec emax y y = SFmul prec emax x x.
Proof.
  intros [(s & s' & -> & ->) | ->]%mirror_inv.
  - destruct s, s'; reflexivity.
  - destruct x as [[]|[]| |[] mx ex]; reflexivity.
Qed.

Lemma mirror_div n x y :
  mirror x y → mirror (SFdiv prec emax x n) (SFdiv prec emax y n).
Proof.
  intros [(s & s' & -> & ->) | ->]%mirror_inv.
  - destruct n as [sn|sn| |sn mn en]; simpl; trivial.
  - rewrite SFdiv_opp_l. apply mirror_opp.
Qed.

Lemma mirror_mul g x y :
  mirror x y → mirror (SFmul prec emax g x) (SFmul prec emax g y).
Proof.
  intros [(s & s' & -> & ->) | ->]%mirror_inv.
  - destruct g as [sg|sg| |sg mg eg]; simpl; trivial.
  - rewrite SFmul_opp_r. apply mirror_opp.
Qed.

Lemma SFadd_zero_l s s' x :
  mirror (SFadd prec emax (S754_zero s) x)
         (SFadd prec emax (S754_zero s') (SFopp x)).
Proof.
  destruct x as [sx|sx| |sx mx ex]; simpl; trivial.
  destruct s, s', sx; simpl; trivial.
Qed.

Lemma SFadd_zero_r s s' x :
  mirror (SFadd prec emax x (S754_zero s))
         (SFadd prec emax (SFopp x) (S754_zero s')).
Proof.
  destruct x as [sx|sx| |sx mx ex]; simpl; trivial.
  destruct s, s', sx; simpl; trivial.
Qed.

Lemma mirror_add x y x' y' :
  mirror x y → mirror x' y' →
  mirror (SFadd prec emax x x') (SFadd prec emax y y').
Proof.
  intros [(s & t & -> & ->) | ->]%mirror_inv
         [(s' & t' & -> & ->) | ->]%mirror_inv.
  - destruct s, t, s', t'; exact I.
  - apply SFadd_zero_l.
  - apply SFadd_zero_r.
  - apply SFadd_opp.
Qed.

(** A number and its negative are on opposite sides of zero. *)
Lemma mirror_ltb x y :
  mirror x y →
  SFltb y (S754_zero false) = SFltb (S754_zero false) x ∧
  SFltb (S754_zero false) y = SFltb x (S754_zero false).
Proof.
  intros [(s & s' & -> & ->) | ->]%mirror_inv.
  - split; reflexivity.
  - destruct x as [[]|[]| |[] mx ex]; split; reflexivity.
Qed.

Section Reversal.

Context {lib : Collaborators}.

Lemma length3_mirror c0 c1 c2 d0 d1 d2 :
  mirror (Prim2SF c0) (Prim2SF d0) →
  mirror (Prim2SF c1) (Prim2SF d1) →
  mirror (Prim2SF c2) (Prim2SF d2) →
  length3 (d0, d1, d2) = length3 (c0, c1, c2).
Proof.
  intros M0 M1 M2. unfold length3.
  assert (H0 : (d0 * d0 = c0 * c0)%float).
  { apply Prim2SF_inj. rewrite !FloatAxioms.mul_spec.
    apply mirror_square, M0. }
  assert (H1 : (d1 * d1 = c1 * c1)%float).
  { apply Prim2SF_inj. rewrite !FloatAxioms.mul_spec.
    apply mirror_square, M1. }
  assert (H2 : (d2 * d2 = c2 * c2)%float).
  { apply Prim2SF_inj. rewrite !FloatAxioms.mul_spec.
    apply mirror_square, M2. }
  rewrite H0, H1, H2. reflexivity.
Qed.

(** The dot product with a vector and with a vector of negated components,
    each divided by its norm. *)
Lemma dot3_mirror u c d :
  opposite3 c d = true →
  mirror (Prim2SF (dot3 u (unit3 c))) (Prim2SF (dot3 u (unit3 d))).
Proof.
  destruct u as [[u0 u1] u2], c as [[c0 c1] c2], d as [[d0 d1] d2].
  unfold opposite3. rewrite !andb_true_iff. intros [[H0 H1] H2].
  apply eqb_opp_mirror in H0, H1, H2.
  unfold unit3. rewrite (length3_mirror c0 c1 c2 d0 d1 d2 H0 H1 H2).
  set (n := length3 (c0, c1, c2)). unfold dot3.
  rewrite !FloatAxioms.add_spec, !FloatAxioms.mul_spec, !FloatAxioms.div_spec.
  repeat apply mirror_add; apply mirror_mul, mirror_div; assumption.
Qed.

(** On a face that reverses exactly, the dot product of the reversed face
    is the negative of the dot product of the face. *)
Lemma direction_turned gx gy gz t :
  reverses_exactly t →
  mirror (Prim2SF (direction gx gy gz t))
         (Prim2SF (direction gx gy gz (turned t))).
Proof.
  intros [Hc Hx]. unfold direction. rewrite Hc. apply dot3_mirror, Hx.
Qed.

(** The reversed face is marked by a mode exactly when the face is marked
    by the opposite mode. *)
Lemma marked_turned m gx gy gz t :
  reverses_exactly t →
  mis_oriented m (direction gx gy gz (turned t))
  = mis_oriented (opposite m) (direction gx gy gz t).
Proof.
  intros Ht. destruct (mirror_ltb _ _ (direction_turned gx gy gz t Ht))
    as [Hneg Hpos].
  destruct m; simpl.
  - rewrite (FloatAxioms.ltb_spec _ 0), (FloatAxioms.ltb_spec 0 _). exact Hneg.
  - rewrite (FloatAxioms.ltb_spec 0 _), (FloatAxioms.ltb_spec _ 0). exact Hpos.
Qed.

(** A mesh of faces that are not marked under [m] and reverse exactly is
    well oriented, and a reversal under the opposite mode is undone. *)
Lemma ready_for_round_trip m gx gy gz vs fs :
  Forall (λ f, ∃ t, corners vs f = Some t ∧
                    mis_oriented m (direction gx gy gz t) = false ∧
                    reverses_exactly t) fs →
  well_oriented m (gx, gy, gz) vs fs = true ∧
  reversal_flips m (gx, gy, gz) vs fs = true.
Proof.
  unfold well_oriented, dots, reversal_flips.
  induction 1 as [|f fs (t & Ht & Hm & Hr) _ [IHw IHr]]; [split; reflexivity|].
  cbn [Np.take forallb].
  rewrite (FormulaFacts.corners_take_face _ _ _ Ht).
  rewrite (FormulaFacts.corners_take_face _ _ _
             (FormulaFacts.corners_reversed _ _ _ Ht)).
  rewrite (FormulaFacts.face_dot_direction gx gy gz t),
    (FormulaFacts.face_dot_direction gx gy gz (turned t)),
    (marked_turned m _ _ _ t Hr).
  destruct (Np.take vs fs) as [ts|e]; [|discriminate].
  cbn [mbind result_bind map forallb] in *.
  rewrite (FormulaFacts.face_dot_direction gx gy gz t), Hm, IHw, IHr.
  destruct (mis_oriented (opposite m) _); split; reflexivity.
Qed.

End Reversal.

End MirrorFacts.

Section RoundTrip.

Context {lib : Collaborators}.

#[local] Arguments Np.take_face : simpl never.

Lemma reversed_involutive f : reversed (reversed f) = f.
Proof. destruct f as [[i0 i1] i2]. reflexivity. Qed.

(** Reorienting with the opposite mode and then with the mode itself gives
    the faces back, face by face. *)
Lemma orient_round_trip m grads vs fs ts :
  Np.take vs fs = Ok ts →
  forallb (λ d, negb (mis_oriented m d)) (map (face_dot grads) ts) = true →
  reversal_flips m grads vs fs = true →
  ∃ ts',
    Np.take vs (orient (opposite m) (map (face_dot grads) ts) fs) = Ok ts' ∧
    orient m (map (face_dot grads) ts')
           (orient (opposite m) (map (face_dot grads) ts) fs) = fs.
Proof.
  unfold reversal_flips, orient.
  revert ts. induction fs as [|f fs IH]; simpl; intros ts Hts Hwell Hrev.
  - injection Hts as <-. exists []. split; reflexivity.
  - destruct (Np.take_face vs f) as [t|e] eqn:Ht; simpl in Hts; [|discriminate].
    destruct (Np.take vs fs) as [ts0|e] eqn:Hts0; simpl in Hts; [|discriminate].
    injection Hts as <-. simpl in Hwell.
    apply andb_true_iff in Hwell as [Hd Hwell].
    apply andb_true_iff in Hrev as [Hf Hrev].
    destruct (IH ts0 eq_refl Hwell Hrev) as (ts' & Htake' & Hback).
    destruct (Np.take_face vs (reversed f)) as [t'|e] eqn:Ht';
      [|discriminate Hf].
    simpl. destruct (mis_oriented (opposite m) (face_dot grads t)) eqn:Hopp.
    + simpl in Hf. rewrite Ht', Htake'. simpl.
      exists (t' :: ts'). split; [reflexivity|]. simpl.
      rewrite Hf, reversed_involutive. f_equal. exact Hback.
    + rewrite Ht, Htake'. simpl.
      exists (t :: ts'). split; [reflexivity|]. simpl.
      apply negb_true_iff in Hd. rewrite Hd. f_equal. exact Hback.
Qed.

(** When no face of the mesh is marked under mode [m], and every face that
    the opposite mode marks is marked by [m] once reversed, correcting with
    the opposite mode and then with [m] gives the faces back. *)
Lemma round_trip_of_flipping_faces
    volume verts faces spacing m s vs fs grads :
  heap s !! verts = Some (Verts vs) →
  heap s !! faces = Some (Faces fs) →
  gradient volume spacing = Ok grads →
  well_oriented m grads vs fs = true →
  reversal_flips m grads vs fs = true →
  ∃ s', round_trip m volume verts faces spacing s = (Ok fs, s').
Proof.
  intros Hverts Hfaces Hgrad Hwell Hrev.
  unfold well_oriented, dots in Hwell.
  destruct (Np.take vs fs) as [ts|e] eqn:Hts; simpl in Hwell; [|discriminate].
  destruct (orient_round_trip m grads vs fs ts Hts Hwell Hrev)
    as (ts' & Hts' & Hback).
  unfold round_trip. rewrite OrientationFacts.run_bind.
  rewrite (OrientationFacts.run_correct_mesh_orientation
             _ _ _ _ _ _ vs fs grads ts Hverts Hfaces Hgrad Hts).
  rewrite selected_keyword. cbv beta iota zeta.
  set (l1 := fresh (dom (heap s))).
  set (fs1 := orient (opposite m) (map (face_dot grads) ts) fs) in *.
  set (s1 := State (<[l1:=Faces fs1]> (heap s)) _).
  assert (Hfresh : heap s !! l1 = None) by apply not_elem_of_dom, is_fresh.
  assert (Hverts1 : heap s1 !! verts = Some (Verts vs)).
  { unfold s1. cbn [heap]. rewrite lookup_insert_ne; [exact Hverts | congruence]. }
  assert (Hfaces1 : heap s1 !! l1 = Some (Faces fs1)).
  { unfold s1. cbn [heap]. apply lookup_insert_eq. }
  rewrite OrientationFacts.run_bind.
  rewrite (OrientationFacts.run_correct_mesh_orientation
             _ _ _ _ _ _ vs fs1 grads ts' Hverts1 Hfaces1 Hgrad Hts').
  rewrite selected_keyword. cbv beta iota zeta.
  unfold load_faces. cbn [heap]. rewrite lookup_insert_eq, Hback.
  eexists. reflexivity.
Qed.


End RoundTrip.

(** *** The orientation corrector on concrete meshes *)

(** Descent mode on the tetrahedron faces over the ramp: the face wound
    against the gradient is reversed, the other two are kept. *)
Lemma flips_exactly_the_misoriented_faces_witness :
  (∃ l s' fs',
     correct_mesh_orientation (lib := Examples.ramp) Examples.ramp_volume 1 2
       Examples.unit_spacing "descent"
       (Examples.mesh_state Examples.tetra_verts Examples.tetra_faces)
     = (Ok l, s') ∧
     heap s' !! l = Some (Faces fs') ∧
     length fs' = length Examples.tetra_faces ∧
     ∀ i i0 i1 i2 t,
       Examples.tetra_faces !! i = Some (i0, i1, i2) →
       Formula.corners Examples.tetra_verts (i0, i1, i2) = Some t →
       fs' !! i
       = Some (if (Formula.direction (lib := Examples.ramp)
                     (Examples.full [3; 3; 3]%nat 0) (Examples.full [3; 3; 3]%nat 0)
                     (Examples.full [3; 3; 3]%nat 1) t <? 0)%float
               then (i2, i1, i0) else (i0, i1, i2))) ∧
  Examples.tetra_faces = [(0, 1, 2); (0, 2, 1); (0, 1, 3)]%Z ∧
  heap (correct_mesh_orientation (lib := Examples.ramp) Examples.ramp_volume
          1 2 Examples.unit_spacing "descent"
          (Examples.mesh_state Examples.tetra_verts Examples.tetra_faces)).2
    !! 3%positive
  = Some (Faces [(0, 1, 2); (1, 2, 0); (0, 1, 3)]%Z).
Proof.
  split; [|split; [reflexivity | vm_compute; reflexivity]].
  apply (flips_exactly_the_misoriented_faces (lib := Examples.ramp)
           Examples.ramp_volume 1 2 Examples.unit_spacing Descent
           (Examples.mesh_state Examples.tetra_verts Examples.tetra_faces)
           Examples.tetra_verts Examples.tetra_faces
           (Examples.full [3; 3; 3]%nat 0) (Examples.full [3; 3; 3]%nat 0)
           (Examples.full [3; 3; 3]%nat 1));
    [reflexivity | reflexivity | reflexivity
    | repeat constructor; vm_compute; eauto].
Defined.

(** C2 as stated fails twice: "gradient descent" is neither documented
    value, yet the call is accepted; and "sideways" is rejected only after
    the gradient has been computed and sampled. *)
Lemma unrecognised_mode_counterexample :
  (correct_mesh_orientation (lib := Examples.ramp) Examples.ramp_volume 1 2
     Examples.unit_spacing "gradient descent"
     (Examples.mesh_state Examples.tetra_verts Examples.tetra_faces)).1
  = Ok 3%positive ∧
  correct_mesh_orientation (lib := Examples.ramp) Examples.ramp_volume 1 2
    Examples.unit_spacing "sideways"
    (Examples.mesh_state Examples.tetra_verts Examples.tetra_faces)
  = (Raise (mode_error "sideways"),
     State (heap (Examples.mesh_state Examples.tetra_verts Examples.tetra_faces))
           [CallGradient; CallMapCoordinates; CallMapCoordinates;
            CallMapCoordinates]).
Proof. split; vm_compute; reflexivity. Qed.

Lemma unrecognised_mode_is_rejected_witness :
  correct_mesh_orientation (lib := Examples.ramp) Examples.ramp_volume 1 2
    Examples.unit_spacing "sideways"
    (Examples.mesh_state Examples.tetra_verts Examples.tetra_faces)
  = (Raise (mode_error "sideways"),
     State (heap (Examples.mesh_state Examples.tetra_verts Examples.tetra_faces))
           (trace (Examples.mesh_state Examples.tetra_verts Examples.tetra_faces)
            ++ [CallGradient; CallMapCoordinates; CallMapCoordinates;
                CallMapCoordinates])).
Proof.
  apply (unrecognised_mode_is_rejected (lib := Examples.ramp)
           Examples.ramp_volume 1 2 Examples.unit_spacing "sideways"
           (Examples.mesh_state Examples.tetra_verts Examples.tetra_faces)
           Examples.tetra_verts Examples.tetra_faces Examples.ramp_fields);
    vm_compute; reflexivity.
Defined.



Lemma returns_a_reordered_copy_witness :
  ∃ l s' fs',
    correct_mesh_orientation (lib := Examples.ramp) Examples.ramp_volume 1 2
      Examples.unit_spacing "ascent"
      (Examples.mesh_state Examples.tetra_verts Examples.tetra_faces)
    = (Ok l, s') ∧
    heap (Examples.mesh_state Examples.tetra_verts Examples.tetra_faces) !! l
    = None ∧
    heap s'
    = <[l:=Faces fs']>
        (heap (Examples.mesh_state Examples.tetra_verts Examples.tetra_faces)) ∧
    heap s' !! 1%positive = Some (Verts Examples.tetra_verts) ∧
    heap s' !! 2%positive = Some (Faces Examples.tetra_faces) ∧
    length fs' = length Examples.tetra_faces ∧
    Forall2 (λ f f', f' = f ∨ f' = reversed f) Examples.tetra_faces fs'.
Proof.
  apply (returns_a_reordered_copy (lib := Examples.ramp)
           Examples.ramp_volume 1 2 Examples.unit_spacing "ascent" Ascent
           (Examples.mesh_state Examples.tetra_verts Examples.tetra_faces)
           Examples.tetra_verts Examples.tetra_faces Examples.ramp_fields);
    vm_compute; reflexivity.
Defined.

Lemma mode_check_is_substring_containment_witness :
  (∃ l s',
     correct_mesh_orientation (lib := Examples.ramp) Examples.ramp_volume 1 2
       Examples.unit_spacing "gradient descent"
       (Examples.mesh_state Examples.tetra_verts Examples.tetra_faces)
     = (Ok l, s') ∧
     correct_mesh_orientation (lib := Examples.ramp) Examples.ramp_volume 1 2
       Examples.unit_spacing "descent"
       (Examples.mesh_state Examples.tetra_verts Examples.tetra_faces)
     = (Ok l, s')) ∧
  (∃ l s',
     correct_mesh_orientation (lib := Examples.ramp) Examples.ramp_volume 1 2
       Examples.unit_spacing "nascent"
       (Examples.mesh_state Examples.tetra_verts Examples.tetra_faces)
     = (Ok l, s') ∧
     correct_mesh_orientation (lib := Examples.ramp) Examples.ramp_volume 1 2
       Examples.unit_spacing "ascent"
       (Examples.mesh_state Examples.tetra_verts Examples.tetra_faces)
     = (Ok l, s')).
Proof.
  split.
  - apply (mode_check_is_substring_containment (lib := Examples.ramp)
             Examples.ramp_volume 1 2 Examples.unit_spacing "gradient descent"
             (Examples.mesh_state Examples.tetra_verts Examples.tetra_faces)
             Examples.tetra_verts Examples.tetra_faces Examples.ramp_fields);
      vm_compute; reflexivity.
  - apply (mode_check_is_substring_containment (lib := Examples.ramp)
             Examples.ramp_volume 1 2 Examples.unit_spacing "nascent"
             (Examples.mesh_state Examples.tetra_verts Examples.tetra_faces)
             Examples.tetra_verts Examples.tetra_faces Examples.ramp_fields);
      vm_compute; reflexivity.
Defined.

(** ** Pairwise summation *)

Module SumFacts.

Import Formula.

Lemma adds_snoc l s x : Adds l s → Adds (l ++ [x]) (s + x)%float.
Proof. intros Hl. apply adds_plus; [exact Hl | apply adds_one]. Qed.

(** Adding the entries left over, one after the other. *)
Lemma adds_fold tail l s :
  Adds l s → Adds (l ++ tail) (fold_left PrimFloat.add tail s).
Proof.
  revert l s. induction tail as [|x tail IH]; simpl; intros l s Hl.
  - rewrite app_nil_r. exact Hl.
  - replace (l ++ x :: tail) with ((l ++ [x]) ++ tail)
      by (rewrite <- app_assoc; reflexivity).
    apply IH, adds_snoc, Hl.
Qed.

Lemma lanes_start x0 x1 x2 x3 x4 x5 x6 x7 :
  lanes_add (x0, x1, x2, x3, x4, x5, x6, x7) [x0; x1; x2; x3; x4; x5; x6; x7].
Proof.
  exists [x0], [x1], [x2], [x3], [x4], [x5], [x6], [x7].
  repeat (split; [apply adds_one|]). reflexivity.
Qed.

Lemma lanes_step r0 r1 r2 r3 r4 r5 r6 r7 x0 x1 x2 x3 x4 x5 x6 x7 l :
  lanes_add (r0, r1, r2, r3, r4, r5, r6, r7) l →
  lanes_add (r0 + x0, r1 + x1, r2 + x2, r3 + x3,
             r4 + x4, r5 + x5, r6 + x6, r7 + x7)%float
            (l ++ [x0; x1; x2; x3; x4; x5; x6; x7]).
Proof.
  intros (l0 & l1 & l2 & l3 & l4 & l5 & l6 & l7 &
          H0 & H1 & H2 & H3 & H4 & H5 & H6 & H7 & Hl).
  exists (l0 ++ [x0]), (l1 ++ [x1]), (l2 ++ [x2]), (l3 ++ [x3]),
         (l4 ++ [x4]), (l5 ++ [x5]), (l6 ++ [x6]), (l7 ++ [x7]).
  repeat (split; [apply adds_snoc; assumption|]).
  rewrite Hl. solve_Permutation.
Qed.

(** The unrolled loop keeps the running sums sums of what it has read. *)
Lemma unrolled_lanes a : ∀ r l,
  lanes_add r l →
  ∃ l', lanes_add (Np.unrolled r a).1 l' ∧
        l' ++ (Np.unrolled r a).2 = l ++ a.
Proof.
  remember (length a) as n eqn:Hn. revert a Hn.
  induction n as [n IH] using lt_wf_ind. intros a Hn r l Hr.
  destruct a as [|x0 [|x1 [|x2 [|x3 [|x4 [|x5 [|x6 [|x7 rest]]]]]]]];
    try (exists l; split; [exact Hr | reflexivity]).
  destruct r as [[[[[[[r0 r1] r2] r3] r4] r5] r6] r7].
  cbn [Np.unrolled].
  destruct (IH (length rest)) with (a := rest)
    (r := (r0 + x0, r1 + x1, r2 + x2, r3 + x3,
           r4 + x4, r5 + x5, r6 + x6, r7 + x7)%float)
    (l := l ++ [x0; x1; x2; x3; x4; x5; x6; x7]) as (l' & Hl' & Heq).
  - subst n. simpl. lia.
  - reflexivity.
  - apply lanes_step, Hr.
  - exists l'. split; [exact Hl'|]. rewrite Heq, <- app_assoc. reflexivity.
Qed.

(** Adding the running sums in pairs. *)
Lemma lanes_tree r0 r1 r2 r3 r4 r5 r6 r7 l :
  lanes_add (r0, r1, r2, r3, r4, r5, r6, r7) l →
  Adds l ((r0 + r1 + (r2 + r3)) + (r4 + r5 + (r6 + r7)))%float.
Proof.
  intros (l0 & l1 & l2 & l3 & l4 & l5 & l6 & l7 &
          H0 & H1 & H2 & H3 & H4 & H5 & H6 & H7 & Hl).
  apply (adds_perm (((l0 ++ l1) ++ (l2 ++ l3)) ++ ((l4 ++ l5) ++ (l6 ++ l7)))).
  - rewrite Hl. solve_Permutation.
  - repeat apply adds_plus; assumption.
Qed.

Lemma block_sum_adds a : Adds a (Np.block_sum a).
Proof.
  assert (Hshort : Adds a (fold_left PrimFloat.add a 0%float)).
  { apply (adds_fold a [] 0%float), adds_nil. }
  destruct a as [|x0 [|x1 [|x2 [|x3 [|x4 [|x5 [|x6 [|x7 rest]]]]]]]];
    try exact Hshort.
  unfold Np.block_sum.
  destruct (unrolled_lanes rest (x0, x1, x2, x3, x4, x5, x6, x7)
              [x0; x1; x2; x3; x4; x5; x6; x7] (lanes_start _ _ _ _ _ _ _ _))
    as (l' & Hl' & Heq).
  destruct (Np.unrolled _ rest) as [r tail]. cbn [fst snd] in Hl', Heq.
  destruct r as [[[[[[[r0 r1] r2] r3] r4] r5] r6] r7].
  change (x0 :: x1 :: x2 :: x3 :: x4 :: x5 :: x6 :: x7 :: rest)
    with ([x0; x1; x2; x3; x4; x5; x6; x7] ++ rest).
  rewrite <- Heq. apply adds_fold, lanes_tree, Hl'.
Qed.

Lemma pairwise_sum_adds depth : ∀ a, Adds a (Np.pairwise_sum depth a).
Proof.
  induction depth as [|depth IH]; intros a; simpl; [apply block_sum_adds|].
  destruct (128 <? length a); [|apply block_sum_adds].
  set (n2 := length a / 2 - (length a / 2) mod 8).
  rewrite <- (firstn_skipn n2 a) at 1.
  apply adds_plus; apply IH.
Qed.

(** [np.sum] adds every entry once. *)
Lemma sum_adds l : Adds l (Np.sum l).
Proof.
  unfold Np.sum. change l with ([] ++ l) at 1.
  apply adds_plus; [apply adds_nil | apply pairwise_sum_adds].
Qed.

(** A sum of numbers that are not below zero is not below zero. *)
Lemma adds_not_negative l s :
  Adds l s → Forall (λ y, (y <? 0)%float = false) l → (s <? 0)%float = false.
Proof.
  induction 1 as [|x|l1 l2 s1 s2 _ IH1 _ IH2|l1 l2 s Hp _ IH]; intros Hl.
  - reflexivity.
  - exact (proj1 (Forall_singleton _ x) Hl).
  - apply Forall_app in Hl as [Hl1 Hl2].
    apply Float64Facts.add_not_negative; auto.
  - apply IH. rewrite Hp. exact Hl.
Qed.

(** The depth given to [pairwise_sum] is enough: no part is left with more
    than 128 entries when the splits are used up. *)
Lemma pairwise_sum_depth depth : ∀ a,
  length a ≤ 128 + depth →
  ∀ depth', depth ≤ depth' →
  Np.pairwise_sum depth' a = Np.pairwise_sum depth a.
Proof.
  induction depth as [|depth IH]; intros a Hlen depth' Hle.
  - destruct depth' as [|depth']; [reflexivity|]. simpl.
    destruct (Nat.ltb_spec 128 (length a)); [lia | reflexivity].
  - destruct depth' as [|depth']; [lia|]. simpl.
    destruct (Nat.ltb_spec 128 (length a)) as [Hbig|]; [|reflexivity].
    set (n2 := length a / 2 - (length a / 2) mod 8).
    assert (H2 : length a / 2 ≤ length a - 65).
    { pose proof (Nat.div_mod_eq (length a) 2) as Hd.
      pose proof (Nat.mod_upper_bound (length a) 2). lia. }
    assert (Hm : (length a / 2) mod 8 < 8) by (apply Nat.mod_upper_bound; lia).
    assert (Hd2 : 64 ≤ length a / 2).
    { apply (Nat.div_le_lower_bound); lia. }
    assert (Hn2 : 57 ≤ n2 ≤ length a - 65) by (unfold n2; lia).
    rewrite (IH (firstn n2 a)), (IH (skipn n2 a)); try reflexivity; try lia.
    + rewrite length_skipn. lia.
    + rewrite length_firstn. lia.
Qed.

End SumFacts.

(** ** Surface area *)

Module AreaFacts.

Import Float64Facts.

Lemma is_zero_spec x :
  PrimFloat.is_zero x = true → ∃ sg, Prim2SF x = S754_zero sg.
Proof.
  unfold PrimFloat.is_zero. rewrite (FloatAxioms.eqb_spec x zero).
  change (Prim2SF zero) with (S754_zero false). unfold SFeqb.
  destruct (Prim2SF x) as [sg|[]| |[] m e]; simpl; try discriminate. eauto.
Qed.

Lemma square_of_zero x :
  PrimFloat.is_zero x = true → Prim2SF (x * x) = S754_zero false.
Proof.
  intros [sg Hx]%is_zero_spec. rewrite FloatAxioms.mul_spec, Hx.
  destruct sg; reflexivity.
Qed.

(** The norm of a vector of zeros is [+0], whatever their signs. *)
Lemma norm_of_zero u : Vec.is_zero u = true → Vec.norm u = 0%float.
Proof.
  destruct u as [[u0 u1] u2]. unfold Vec.is_zero, Vec.norm, Vec.square, Vec.sum.
  simpl. rewrite !andb_true_iff. intros [[H0 H1] H2].
  apply Prim2SF_inj.
  rewrite FloatAxioms.sqrt_spec, !FloatAxioms.add_spec.
  rewrite (square_of_zero u0 H0), (square_of_zero u1 H1), (square_of_zero u2 H2).
  reflexivity.
Qed.

Lemma norm_not_negative u : (Vec.norm u <? 0)%float = false.
Proof. apply sqrt_not_negative. Qed.

Lemma sum_not_negative xs :
  Forall (λ y, (y <? 0)%float = false) xs → (Np.sum xs <? 0)%float = false.
Proof. apply SumFacts.adds_not_negative, SumFacts.sum_adds. Qed.

Lemma area_not_negative (ts : list triangle) : (area ts <? 0)%float = false.
Proof.
  unfold area. apply half_not_negative, sum_not_negative.
  apply Forall_forall. intros x Hx. apply list_elem_of_fmap in Hx as (t & -> & _).
  apply norm_not_negative.
Qed.

Lemma norms_cross_norm (ts : list triangle) :
  map Vec.norm (zip_with Vec.cross (map edge_a ts) (map edge_b ts))
  = map cross_norm ts.
Proof.
  induction ts as [|t ts IH]; simpl; [reflexivity|]. f_equal. exact IH.
Qed.

Lemma run_mesh_surface_area verts faces s vs fs ts :
  heap s !! verts = Some (Verts vs) →
  heap s !! faces = Some (Faces fs) →
  Np.take vs fs = Ok ts →
  mesh_surface_area verts faces s = (Ok (area ts), s).
Proof.
  intros Hverts Hfaces Hts. unfold mesh_surface_area.
  rewrite OrientationFacts.run_bind. unfold load_faces at 1. rewrite Hfaces.
  rewrite OrientationFacts.run_bind. unfold load_verts at 1. rewrite Hverts.
  rewrite OrientationFacts.run_bind. unfold lift at 1. rewrite Hts.
  rewrite norms_cross_norm. reflexivity.
Qed.

Lemma run_mesh_surface_area_inv verts faces s a s' :
  mesh_surface_area verts faces s = (Ok a, s') →
  ∃ ts, a = area ts ∧ s' = s.
Proof.
  unfold mesh_surface_area.
  rewrite OrientationFacts.run_bind. unfold load_faces at 1.
  destruct (heap s !! faces) as [[?|fs|?]|]; try discriminate.
  rewrite OrientationFacts.run_bind. unfold load_verts at 1.
  destruct (heap s !! verts) as [[vs|?|?]|]; try discriminate.
  rewrite OrientationFacts.run_bind. unfold lift at 1.
  destruct (Np.take vs fs) as [ts|e]; try discriminate.
  rewrite norms_cross_norm. intros [= <- <-]. eauto.
Qed.

End AreaFacts.

(** C4: for vertices and triangular faces whose indices are positions in
    the vertex array, [mesh_surface_area] returns one half of a binary64 sum
    that has one term per face [(v0, v1, v2)], the Euclidean norm of the
    cross product of [a = v0 - v1] and [b = v0 - v2]; every face is a term,
    and a face whose cross product is a zero vector is the term 0. *)
Theorem mesh_surface_area_is_half_the_cross_norms verts faces s vs fs ts :
  heap s !! verts = Some (Verts vs) →
  heap s !! faces = Some (Faces fs) →
  Forall2 (λ f t, Formula.corners vs f = Some t) fs ts →
  ∃ total,
    Formula.Adds (map Formula.cross_length ts) total ∧
    mesh_surface_area verts faces s = (Ok (total / 2)%float, s) ∧
    ∀ t, t ∈ ts →
      Formula.zero3 (Formula.cross_product t) = true →
      Formula.cross_length t = 0%float.
Proof.
  intros Hverts Hfaces Hts.
  exists (Np.sum (map Formula.cross_length ts)). split; [|split].
  - apply SumFacts.sum_adds.
  - rewrite (AreaFacts.run_mesh_surface_area verts faces s vs fs ts Hverts
               Hfaces (FormulaFacts.corners_take vs fs ts Hts)).
    unfold area.
    rewrite (map_ext _ _ FormulaFacts.cross_norm_cross_length). reflexivity.
  - intros [[[[x0 y0] z0] [[x1 y1] z1]] [[x2 y2] z2]] _ Hzero.
    rewrite FormulaFacts.zero3_is_zero in Hzero.
    apply (AreaFacts.norm_of_zero _ Hzero).
Qed.

(** The area of ten faces over the tetrahedron: the sum runs through the
    unrolled loop, and the face that repeats a vertex is one of its terms. *)
Lemma mesh_surface_area_is_half_the_cross_norms_witness :
  (∃ total,
     Formula.Adds (map Formula.cross_length Examples.ten_triangles) total ∧
     mesh_surface_area 1 2
       (Examples.mesh_state Examples.tetra_verts Examples.ten_faces)
     = (Ok (total / 2)%float,
        Examples.mesh_state Examples.tetra_verts Examples.ten_faces) ∧
     ∀ t, t ∈ Examples.ten_triangles →
       Formula.zero3 (Formula.cross_product t) = true →
       Formula.cross_length t = 0%float) ∧
  length Examples.ten_triangles = 10.
Proof.
  split; [|reflexivity].
  apply (mesh_surface_area_is_half_the_cross_norms 1 2
           (Examples.mesh_state Examples.tetra_verts Examples.ten_faces)
           Examples.tetra_verts Examples.ten_faces Examples.ten_triangles);
    [reflexivity | reflexivity | repeat constructor].
Defined.


(** ** Vertex welding *)

Module WeldFacts.

Import MarchingCubesCy Float64 Float64Facts.

Lemma consistent_empty : consistent (Welder [] []).
Proof.
  split; simpl.
  - intros k i Hi. apply not_elem_of_nil in Hi. contradiction.
  - intros k Hk. apply not_elem_of_nil in Hk. contradiction.
  - intros i j u v Hi. rewrite lookup_nil in Hi. discriminate.
Qed.

Lemma find_index_Some d v i :
  find_index d v = Some i → ∃ k, (k, i) ∈ d ∧ vec3_eqb k v = true.
Proof.
  induction d as [|[k j] d IH]; simpl; [discriminate|].
  destruct (vec3_eqb k v) eqn:Heq.
  - intros [= <-]. exists k. split; [apply list_elem_of_here | exact Heq].
  - intros Hi. destruct (IH Hi) as (k' & Hk' & Heq').
    exists k'. split; [apply list_elem_of_further, Hk' | exact Heq'].
Qed.

Lemma find_index_None d v k :
  find_index d v = None → k ∈ d.*1 → vec3_eqb k v = false.
Proof.
  induction d as [|[k' j] d IH]; simpl.
  - intros _ Hk. apply not_elem_of_nil in Hk. contradiction.
  - destruct (vec3_eqb k' v) eqn:Heq; [discriminate|].
    intros Hnone Hk. apply elem_of_cons in Hk as [-> | Hk]; [exact Heq|].
    apply IH; assumption.
Qed.

(** One lookup-or-insert keeps the invariant; the index it returns is a
    position, and the vertices kept so far stay where they are. *)
Lemma weld_consistent w v i w' :
  weld w v = (i, w') → consistent w →
  consistent w' ∧ i < length (vert_list w') ∧
  vert_list w `prefix_of` vert_list w'.
Proof.
  unfold weld. intros Hweld [Hsound Hcomplete Hunique].
  destruct (find_index (vert_index w) v) as [j|] eqn:Hfind.
  - injection Hweld as <- <-. split; [split; assumption|].
    split; [|reflexivity].
    destruct (find_index_Some _ _ _ Hfind) as (k & Hk & _).
    eapply lookup_lt_Some, Hsound, Hk.
  - injection Hweld as <- <-. simpl. split; [split; simpl|].
    + intros k i Hk. apply elem_of_cons in Hk as [[= -> ->] | Hk].
      * apply list_lookup_middle. reflexivity.
      * apply lookup_app_l_Some, Hsound, Hk.
    + intros k Hk. apply elem_of_app in Hk as [Hk | Hk].
      * apply list_elem_of_further, Hcomplete, Hk.
      * apply list_elem_of_singleton in Hk as ->. apply list_elem_of_here.
    + intros i j u u' Hi Hj Heq.
      apply lookup_app_Some in Hi as [Hi | [Hi Hu]];
        apply lookup_app_Some in Hj as [Hj | [Hj Hu']].
      * eapply Hunique; eassumption.
      * apply list_lookup_singleton_Some in Hu' as [_ <-].
        assert (Hin : u ∈ (vert_index w).*1).
        { apply Hcomplete. eapply list_elem_of_lookup_2, Hi. }
        rewrite (find_index_None _ _ _ Hfind Hin) in Heq. discriminate.
      * apply list_lookup_singleton_Some in Hu as [_ <-].
        assert (Hin : u' ∈ (vert_index w).*1).
        { apply Hcomplete. eapply list_elem_of_lookup_2, Hj. }
        rewrite vec3_eqb_sym, (find_index_None _ _ _ Hfind Hin) in Heq.
        discriminate.
      * apply list_lookup_singleton_Some in Hu as [Hi' _].
        apply list_lookup_singleton_Some in Hu' as [Hj' _]. lia.
    + rewrite length_app. simpl. split; [lia|].
      apply prefix_app_r. reflexivity.
Qed.

Lemma weld_triangle_consistent w t f w' :
  weld_triangle w t = (f, w') → consistent w →
  consistent w' ∧ face_in_range (length (vert_list w')) f ∧
  vert_list w `prefix_of` vert_list w'.
Proof.
  unfold weld_triangle. destruct t as [[v0 v1] v2]. intros Hweld Hw.
  destruct (weld w v0) as [i0 w0] eqn:H0.
  destruct (weld w0 v1) as [i1 w1] eqn:H1.
  destruct (weld w1 v2) as [i2 w2] eqn:H2.
  injection Hweld as <- <-.
  destruct (weld_consistent _ _ _ _ H0 Hw) as (Hw0 & Hi0 & Hl0).
  destruct (weld_consistent _ _ _ _ H1 Hw0) as (Hw1 & Hi1 & Hl1).
  destruct (weld_consistent _ _ _ _ H2 Hw1) as (Hw2 & Hi2 & Hl2).
  split; [exact Hw2|]. split.
  - pose proof (prefix_length _ _ Hl1). pose proof (prefix_length _ _ Hl2).
    unfold face_in_range. simpl. lia.
  - etransitivity; [exact Hl0|]. etransitivity; [exact Hl1 | exact Hl2].
Qed.

Lemma weld_all_consistent trilist w fs w' :
  weld_all w trilist = (fs, w') → consistent w →
  consistent w' ∧ Forall (face_in_range (length (vert_list w'))) fs ∧
  vert_list w `prefix_of` vert_list w'.
Proof.
  revert w fs w'. induction trilist as [|t ts IH]; simpl; intros w fs w' Hall Hw.
  - injection Hall as <- <-. split; [exact Hw|]. split; [constructor | reflexivity].
  - destruct (degenerate t); [apply IH; assumption|].
    destruct (weld_triangle w t) as [f w1] eqn:Ht.
    destruct (weld_all w1 ts) as [fs' w2] eqn:Hts.
    injection Hall as <- <-.
    destruct (weld_triangle_consistent _ _ _ _ Ht Hw) as (Hw1 & Hf & Hl1).
    destruct (IH _ _ _ Hts Hw1) as (Hw2 & Hfs & Hl2).
    split; [exact Hw2|]. split; [|etransitivity; [exact Hl1 | exact Hl2]].
    constructor; [|exact Hfs].
    pose proof (prefix_length _ _ Hl2). unfold face_in_range in *. lia.
Qed.

(** A scan that gives no face has kept no vertex: it met degenerate
    triangles only. *)
Lemma weld_all_no_face trilist w w' :
  weld_all w trilist = ([], w') →
  w' = w ∧ forallb degenerate trilist = true.
Proof.
  revert w. induction trilist as [|t ts IH]; simpl; intros w Hall.
  - injection Hall as <-. auto.
  - destruct (degenerate t); [apply IH, Hall|].
    destruct (weld_triangle w t) as [f w1].
    destruct (weld_all w1 ts) as [fs' w2]. discriminate.
Qed.

Lemma weld_all_degenerate trilist w :
  forallb degenerate trilist = true → weld_all w trilist = ([], w).
Proof.
  induction trilist as [|t ts IH]; simpl; [reflexivity|].
  destruct (degenerate t); [exact IH | discriminate].
Qed.

(** The welded mesh: no two vertices are equal, every index of a face is a
    position, and there is no vertex when there is no face. *)
Lemma unpack_unique_verts_mesh trilist vs fs :
  unpack_unique_verts trilist = (vs, fs) →
  (∀ i j u v, vs !! i = Some u → vs !! j = Some v →
              vec3_eqb u v = true → i = j) ∧
  Forall (face_in_range (length vs)) fs ∧
  (fs = [] → vs = [] ∧ forallb degenerate trilist = true) ∧
  (forallb degenerate trilist = true → fs = []).
Proof.
  unfold unpack_unique_verts.
  destruct (weld_all (Welder [] []) trilist) as [face_list w] eqn:Hall.
  intros [= <- <-].
  destruct (weld_all_consistent _ _ _ _ Hall consistent_empty)
    as (Hw & Hfs & _).
  split; [apply (verts_unique _ Hw)|]. split; [exact Hfs|]. split.
  - intros ->. destruct (weld_all_no_face _ _ _ Hall) as [-> Hdeg]. auto.
  - intros Hdeg. rewrite (weld_all_degenerate _ _ Hdeg) in Hall.
    injection Hall as <- _. reflexivity.
Qed.

End WeldFacts.

(** ** The data range of a volume *)

Module RangeFacts.

Import Float64 Float64Facts.

Lemma leb_match x y :
  (x <=? y)%float
  = match cmp x y with Some Lt | Some Eq => true | _ => false end.
Proof. rewrite (FloatAxioms.leb_spec x y). reflexivity. Qed.

Lemma ltb_match x y :
  (x <? y)%float = match cmp x y with Some Lt => true | _ => false end.
Proof. rewrite (FloatAxioms.ltb_spec x y). reflexivity. Qed.

Lemma ordered_refl x : ordered x x.
Proof.
  destruct (is_nan x) eqn:Hx; [left; auto|].
  right. repeat split; auto. rewrite ltb_match, (cmp_refl x Hx). reflexivity.
Qed.

Lemma cmp_nan_l x y : is_nan x = true → cmp x y = None.
Proof. intros Hx. apply cmp_nan. auto. Qed.

Lemma cmp_nan_r x y : is_nan y = true → cmp x y = None.
Proof. intros Hy. apply cmp_nan. auto. Qed.

(** One step of the two reductions keeps the bounds ordered. *)
Lemma ordered_step lo hi x :
  ordered lo hi → ordered (Np.minimum lo x) (Np.maximum hi x).
Proof.
  unfold Np.minimum, Np.maximum. intros [[Hlo Hhi] | (Hlo & Hhi & Hle)].
  - rewrite Hlo, Hhi, !orb_true_r. left. auto.
  - rewrite Hlo, Hhi, !orb_false_r, !leb_match.
    destruct (is_nan x) eqn:Hx.
    + rewrite (cmp_nan_r lo x Hx), (cmp_nan_l x hi Hx). left. auto.
    + pose proof (cmp_antisym lo x) as Hax.
      pose proof (cmp_antisym x hi) as Hxb.
      pose proof (cmp_refl x Hx) as Hxx.
      destruct (cmp lo x) as [[]|], (cmp x hi) as [[]|];
        right; repeat split; try assumption;
        rewrite ltb_match, ?Hax, ?Hxb, ?Hxx; reflexivity.
Qed.

Lemma fold_ordered xs lo hi :
  ordered lo hi →
  ordered (fold_left Np.minimum xs lo) (fold_left Np.maximum xs hi).
Proof.
  revert lo hi. induction xs as [|x xs IH]; simpl; intros lo hi H; [exact H|].
  apply IH, ordered_step, H.
Qed.

Lemma min_max_ordered volume lo hi :
  Np.min volume = Ok lo → Np.max volume = Ok hi → ordered lo hi.
Proof.
  unfold Np.min, Np.max, Np.reduce.
  destruct (Np.data volume) as [|x xs]; [discriminate|].
  intros [= <-] [= <-]. apply fold_ordered, ordered_refl.
Qed.

(** A level equal to one of two ordered bounds is below neither the lower
    nor above the upper one. *)
Lemma equal_to_a_bound level lo hi :
  ordered lo hi →
  (level =? lo)%float = true ∨ (level =? hi)%float = true →
  (level <? lo)%float = false ∧ (hi <? level)%float = false.
Proof.
  intros Hord Heq. rewrite !ltb_match.
  destruct Heq as [Heq | Heq]; apply eqb_cmp in Heq.
  - destruct Hord as [[Hlo _] | (_ & _ & Hle)].
    + rewrite (cmp_nan_r level lo Hlo) in Heq. discriminate.
    + rewrite ltb_match in Hle.
      rewrite (cmp_eq_r level lo hi Heq), Heq. auto.
  - destruct Hord as [[_ Hhi] | (_ & _ & Hle)].
    + rewrite (cmp_nan_r level hi Hhi) in Heq. discriminate.
    + rewrite ltb_match in Hle.
      rewrite (cmp_antisym level hi), Heq. simpl. split; [|reflexivity].
      rewrite (cmp_antisym lo level), (cmp_eq_r level hi lo Heq).
      rewrite <- (cmp_antisym lo hi). exact Hle.
Qed.

End RangeFacts.

(** ** Marching cubes *)

Section MarchingCubesClaims.

Context {lib : Collaborators}.

(** What a call with a three-dimensional volume and a level inside the data
    range does: one traversal, one welding pass, two new arrays. *)
Lemma run_marching_cubes volume level spacing s lo hi :
  Np.ndim volume = 3 →
  Np.min volume = Ok lo →
  Np.max volume = Ok hi →
  (level <? lo)%float = false →
  (hi <? level)%float = false →
  marching_cubes volume level spacing s
  = let mesh := MarchingCubesCy.unpack_unique_verts
                  (iterate_and_store_3d volume level spacing) in
    let lv := fresh (dom (heap s)) in
    let h := <[lv:=asarray_verts mesh.1]> (heap s) in
    let lf := fresh (dom h) in
    (Ok (lv, lf),
     State (<[lf:=asarray_faces mesh.2]> h)
           (trace s ++ [CallIterate; CallUnpack])).
Proof.
  intros Hdim Hmin Hmax Hlo Hhi. unfold marching_cubes.
  rewrite Hdim. cbn [Nat.eqb negb].
  rewrite OrientationFacts.run_bind. unfold lift at 1. rewrite Hmin, Hlo.
  rewrite OrientationFacts.run_bind. unfold lift at 1. rewrite Hmax, Hhi.
  unfold cy_iterate_and_store_3d, cy_unpack_unique_verts.
  rewrite !OrientationFacts.run_bind. unfold log at 1. cbn [heap trace].
  unfold mret at 1, M_ret at 1.
  rewrite !OrientationFacts.run_bind. unfold log at 1. cbn [heap trace].
  unfold mret at 1, M_ret at 1.
  destruct (MarchingCubesCy.unpack_unique_verts _) as [vs fs].
  rewrite !OrientationFacts.run_bind. unfold alloc at 1. cbn [heap trace].
  rewrite !OrientationFacts.run_bind. unfold alloc at 1. cbn [heap trace].
  rewrite <- app_assoc. reflexivity.
Qed.

(** C7: with a three-dimensional volume, a level below the minimum or above
    the maximum of the data is rejected with the store untouched, so before
    any traversal; a level equal to the minimum or to the maximum is
    accepted, and the cells are traversed. *)
Theorem level_bounds_are_inclusive volume level spacing s lo hi :
  Np.ndim volume = 3 →
  Np.min volume = Ok lo →
  Np.max volume = Ok hi →
  ((level <? lo)%float = true ∨ (hi <? level)%float = true →
   marching_cubes volume level spacing s
   = (Raise (ValueError "Contour level must be within volume data range."),
      s)) ∧
  ((level =? lo)%float = true ∨ (level =? hi)%float = true →
   ∃ mesh s',
     marching_cubes volume level spacing s = (Ok mesh, s') ∧
     CallIterate ∈ trace s').
Proof.
  intros Hdim Hmin Hmax. split.
  - intros Hout. unfold marching_cubes.
    rewrite Hdim. cbn [Nat.eqb negb].
    rewrite OrientationFacts.run_bind. unfold lift at 1. rewrite Hmin.
    destruct (level <? lo)%float; [reflexivity|].
    destruct Hout as [Hout | Hout]; [discriminate|].
    rewrite OrientationFacts.run_bind. unfold lift at 1. rewrite Hmax, Hout.
    reflexivity.
  - intros Heq.
    destruct (RangeFacts.equal_to_a_bound level lo hi
                (RangeFacts.min_max_ordered volume lo hi Hmin Hmax) Heq)
      as [Hlo Hhi].
    rewrite (run_marching_cubes volume level spacing s lo hi
               Hdim Hmin Hmax Hlo Hhi).
    cbv zeta. eexists _, _. split; [reflexivity|]. cbn [trace].
    apply elem_of_app. right. apply list_elem_of_here.
Qed.

(** C8: a volume that does not have exactly three axes is rejected with a
    [ValueError] of its own, with the store untouched, so before any cell
    is visited. *)
Theorem volume_must_have_three_axes volume level spacing s :
  Np.ndim volume ≠ 3 →
  marching_cubes volume level spacing s
  = (Raise (ValueError "Input volume must have 3 dimensions."), s).
Proof.
  intros Hdim. unfold marching_cubes.
  destruct (Nat.eqb_spec (Np.ndim volume) 3) as [Heq | _]; [contradiction|].
  reflexivity.
Qed.

(** What the two arrays of an accepted call hold: nothing, each of them an
    empty one-dimensional array, when every raw triangle repeats a corner;
    otherwise the vertices and the faces of a mesh with at least one face,
    in which no two vertices are equal and every index is a position. *)
Lemma asarray_mesh trilist :
  (forallb MarchingCubesCy.degenerate trilist = true ∧
   asarray_verts (MarchingCubesCy.unpack_unique_verts trilist).1 = Flat [] ∧
   asarray_faces (MarchingCubesCy.unpack_unique_verts trilist).2 = Flat []) ∨
  (forallb MarchingCubesCy.degenerate trilist = false ∧
   ∃ vs fs,
     asarray_verts (MarchingCubesCy.unpack_unique_verts trilist).1 = Verts vs ∧
     asarray_faces (MarchingCubesCy.unpack_unique_verts trilist).2 = Faces fs ∧
     fs ≠ [] ∧
     (∀ i j u v, vs !! i = Some u → vs !! j = Some v →
                 Float64.vec3_eqb u v = true → i = j) ∧
     Forall (λ f : face,
               (0 ≤ f.1.1 < Z.of_nat (length vs))%Z ∧
               (0 ≤ f.1.2 < Z.of_nat (length vs))%Z ∧
               (0 ≤ f.2 < Z.of_nat (length vs))%Z) fs).
Proof.
  destruct (MarchingCubesCy.unpack_unique_verts trilist) as [vs fs] eqn:Hmesh.
  apply WeldFacts.unpack_unique_verts_mesh in Hmesh
    as (Hunique & Hrange & Hnone & Hdeg).
  cbn [fst snd]. destruct fs as [|f fs].
  - left. destruct (Hnone eq_refl) as [-> Hall]. auto.
  - right. split.
    { destruct (forallb _ trilist); [|reflexivity].
      specialize (Hdeg eq_refl). discriminate. }
    assert (Hvs : vs ≠ []).
    { intros ->. apply Forall_cons in Hrange as [H0 _].
      unfold MarchingCubesCy.face_in_range in H0. simpl in H0. lia. }
    exists vs, (map face_row (f :: fs)).
    split; [destruct vs; [contradiction | reflexivity]|].
    split; [reflexivity|]. split; [discriminate|]. split; [exact Hunique|].
    apply Forall_fmap. eapply Forall_impl; [exact Hrange|].
    intros [[i0 i1] i2]. unfold MarchingCubesCy.face_in_range. simpl. lia.
Qed.

(** C9: for a three-dimensional volume and a level inside its data range,
    [marching_cubes] returns two new arrays. Either they are the vertices
    and the faces of a mesh in which every index of every face is a position
    in the vertex array and no two vertices at different positions have
    coordinates that are equal under [==]; or no raw triangle has three
    distinct corners, and both are the empty one-dimensional array, a mesh
    without vertices and without faces. *)
Theorem mesh_is_indexed_and_welded volume level spacing s lo hi :
  Np.ndim volume = 3 →
  Np.min volume = Ok lo →
  Np.max volume = Ok hi →
  (level <? lo)%float = false →
  (hi <? level)%float = false →
  ∃ lv lf s',
    marching_cubes volume level spacing s = (Ok (lv, lf), s') ∧
    ((heap s' !! lv = Some (Flat []) ∧ heap s' !! lf = Some (Flat [])) ∨
     ∃ vs fs,
       heap s' !! lv = Some (Verts vs) ∧
       heap s' !! lf = Some (Faces fs) ∧
       (∀ i j x y z x' y' z',
          vs !! i = Some (x, y, z) → vs !! j = Some (x', y', z') →
          (x =? x')%float = true → (y =? y')%float = true →
          (z =? z')%float = true → i = j) ∧
       Forall (λ f : face,
                 (0 ≤ f.1.1 < Z.of_nat (length vs))%Z ∧
                 (0 ≤ f.1.2 < Z.of_nat (length vs))%Z ∧
                 (0 ≤ f.2 < Z.of_nat (length vs))%Z) fs).
Proof.
  intros Hdim Hmin Hmax Hlo Hhi.
  rewrite (run_marching_cubes volume level spacing s lo hi
             Hdim Hmin Hmax Hlo Hhi).
  cbv zeta.
  set (mesh := MarchingCubesCy.unpack_unique_verts _).
  set (lv := fresh (dom (heap s))).
  set (h := <[lv:=asarray_verts mesh.1]> (heap s)).
  set (lf := fresh (dom h)).
  assert (Hne : lf ≠ lv).
  { intros Heq. apply (is_fresh (dom h)). fold lf. rewrite Heq.
    unfold h. rewrite dom_insert_L. set_solver. }
  exists lv, lf. eexists. split; [reflexivity|]. cbn [heap].
  rewrite lookup_insert_eq. unfold h.
  rewrite lookup_insert_ne by exact Hne.
  rewrite lookup_insert_eq. unfold mesh.
  destruct (asarray_mesh (iterate_and_store_3d volume level spacing))
    as [(_ & -> & ->) | (_ & vs & fs & -> & -> & _ & Hunique & Hrange)].
  - left. auto.
  - right. exists vs, fs. split; [reflexivity|]. split; [reflexivity|].
    split; [|exact Hrange].
    intros i j x y z x' y' z' Hi Hj Hx Hy Hz.
    apply (Hunique i j _ _ Hi Hj). unfold Float64.vec3_eqb.
    rewrite Hx, Hy, Hz. reflexivity.
Qed.

End MarchingCubesClaims.

(** *** Marching cubes on concrete volumes *)

Lemma level_bounds_are_inclusive_witness :
  marching_cubes (lib := Examples.ramp) Examples.corner_volume 2
    Examples.unit_spacing (State ∅ [])
  = (Raise (ValueError "Contour level must be within volume data range."),
     State ∅ []) ∧
  (∃ mesh s',
     marching_cubes (lib := Examples.ramp) Examples.corner_volume 0
       Examples.unit_spacing (State ∅ []) = (Ok mesh, s') ∧
     CallIterate ∈ trace s') ∧
  (∃ mesh s',
     marching_cubes (lib := Examples.ramp) Examples.corner_volume 1
       Examples.unit_spacing (State ∅ []) = (Ok mesh, s') ∧
     CallIterate ∈ trace s').
Proof.
  split; [|split].
  - apply (level_bounds_are_inclusive (lib := Examples.ramp)
             Examples.corner_volume 2 Examples.unit_spacing (State ∅ []) 0 1);
      [reflexivity | reflexivity | reflexivity | right; reflexivity].
  - apply (level_bounds_are_inclusive (lib := Examples.ramp)
             Examples.corner_volume 0 Examples.unit_spacing (State ∅ []) 0 1);
      [reflexivity | reflexivity | reflexivity | left; reflexivity].
  - apply (level_bounds_are_inclusive (lib := Examples.ramp)
             Examples.corner_volume 1 Examples.unit_spacing (State ∅ []) 0 1);
      [reflexivity | reflexivity | reflexivity | right; reflexivity].
Defined.

Lemma volume_must_have_three_axes_witness :
  marching_cubes (lib := Examples.ramp) Examples.flat_image 0.5
    Examples.unit_spacing (State ∅ [])
  = (Raise (ValueError "Input volume must have 3 dimensions."), State ∅ []).
Proof.
  apply (volume_must_have_three_axes (lib := Examples.ramp)
           Examples.flat_image 0.5 Examples.unit_spacing (State ∅ [])).
  vm_compute. discriminate.
Defined.

(** Three raw triangles: the one that repeats a corner is left out, and
    the corner written with a negative zero is welded to the one written
    with a positive zero, so that four vertices carry two faces. *)
Lemma mesh_is_indexed_and_welded_witness :
  (∃ lv lf s',
     marching_cubes (lib := Examples.fan) Examples.corner_volume 0.5
       Examples.unit_spacing (State ∅ []) = (Ok (lv, lf), s') ∧
     ((heap s' !! lv = Some (Flat []) ∧ heap s' !! lf = Some (Flat [])) ∨
      ∃ vs fs,
        heap s' !! lv = Some (Verts vs) ∧
        heap s' !! lf = Some (Faces fs) ∧
        (∀ i j x y z x' y' z',
           vs !! i = Some (x, y, z) → vs !! j = Some (x', y', z') →
           (x =? x')%float = true → (y =? y')%float = true →
           (z =? z')%float = true → i = j) ∧
        Forall (λ f : face,
                  (0 ≤ f.1.1 < Z.of_nat (length vs))%Z ∧
                  (0 ≤ f.1.2 < Z.of_nat (length vs))%Z ∧
                  (0 ≤ f.2 < Z.of_nat (length vs))%Z) fs)) ∧
  marching_cubes (lib := Examples.fan) Examples.corner_volume 0.5
    Examples.unit_spacing (State ∅ [])
  = (Ok (1%positive, 2%positive),
     State (<[2%positive:=Faces [(0, 1, 2); (0, 2, 3)]%Z]>
              (<[1%positive:=Verts [(0.5, 0, 0); (0, 0.5, 0); (0, 0, 0.5);
                                    (0.5, 0.5, 0.5)]%float]> ∅))
           [CallIterate; CallUnpack]).
Proof.
  split.
  - apply (mesh_is_indexed_and_welded (lib := Examples.fan)
             Examples.corner_volume 0.5 Examples.unit_spacing (State ∅ []) 0 1);
      reflexivity.
  - vm_compute. reflexivity.
Defined.

(** * Further properties *)

(** ** What a call leaves alone *)

Module FrameFacts.

Lemma read_only_ret {A} (a : A) : read_only (mret a).
Proof. intros s. reflexivity. Qed.

Lemma read_only_lift {A} (r : result A) : read_only (lift r).
Proof. intros s. reflexivity. Qed.

Lemma read_only_load_verts l : read_only (load_verts l).
Proof.
  intros s. unfold load_verts. destruct (heap s !! l) as [[?|?|?]|]; reflexivity.
Qed.

Lemma read_only_load_faces l : read_only (load_faces l).
Proof.
  intros s. unfold load_faces. destruct (heap s !! l) as [[?|?|?]|]; reflexivity.
Qed.

Lemma read_only_bind {A B} (m : M A) (f : A → M B) :
  read_only m → (∀ a, read_only (f a)) → read_only (m ≫= f).
Proof.
  intros Hm Hf s. rewrite OrientationFacts.run_bind.
  specialize (Hm s). destruct (m s) as [[a|e] s1]; simpl in Hm; subst s1.
  - apply Hf.
  - reflexivity.
Qed.

Lemma read_only_preserves {A} (m : M A) : read_only m → preserves_store m.
Proof. intros Hm s. rewrite Hm. reflexivity. Qed.

Lemma preserves_log e : preserves_store (log e).
Proof. intros s. reflexivity. Qed.

Lemma preserves_raise {A} e : preserves_store (raise (A := A) e).
Proof. intros s. reflexivity. Qed.

Lemma preserves_alloc a : preserves_store (alloc a).
Proof.
  intros s. unfold alloc. cbn [snd heap].
  apply insert_subseteq, not_elem_of_dom, is_fresh.
Qed.

Lemma preserves_bind {A B} (m : M A) (f : A → M B) :
  preserves_store m → (∀ a, preserves_store (f a)) →
  preserves_store (m ≫= f).
Proof.
  intros Hm Hf s. rewrite OrientationFacts.run_bind.
  specialize (Hm s). destruct (m s) as [[a|e] s1]; simpl in Hm.
  - etransitivity; [exact Hm | apply Hf].
  - exact Hm.
Qed.

(** [faces.copy()] followed by the write to the copy: the copy is the one
    array that is written. *)
Lemma preserves_copy_and_patch (orig : list face) (indices : list nat) :
  preserves_store
    (faces_corrected ← alloc (Faces orig);
     cur ← load_faces faces_corrected;
     rows ← lift (Np.take_rows cur indices);
     cur ← load_faces faces_corrected;
     new ← lift (Np.put_rows cur indices (map reversed rows));
     store faces_corrected (Faces new);;
     mret faces_corrected).
Proof.
  intros s.
  assert (Hfresh : heap s ⊆ <[fresh (dom (heap s)):=Faces orig]> (heap s)).
  { apply insert_subseteq, not_elem_of_dom, is_fresh. }
  rewrite OrientationFacts.run_bind. unfold alloc at 1. cbn [heap trace].
  rewrite OrientationFacts.run_bind. unfold load_faces at 1. cbn [heap trace].
  rewrite lookup_insert_eq.
  rewrite OrientationFacts.run_bind. unfold lift at 1.
  destruct (Np.take_rows orig indices) as [rows|e]; [|exact Hfresh].
  rewrite OrientationFacts.run_bind. unfold load_faces at 1. cbn [heap trace].
  rewrite lookup_insert_eq.
  rewrite OrientationFacts.run_bind. unfold lift at 1.
  destruct (Np.put_rows orig indices (map reversed rows)) as [new|e];
    [|exact Hfresh].
  rewrite OrientationFacts.run_bind. unfold store at 1. cbn [heap trace snd].
  rewrite insert_insert_eq.
  apply insert_subseteq, not_elem_of_dom, is_fresh.
Qed.

End FrameFacts.

(** X1: [mesh_surface_area] only reads: whatever the references hold and
    whether it returns or raises, the store and the call trace after the
    call are the ones before it. *)
Theorem mesh_surface_area_only_reads verts faces s :
  (mesh_surface_area verts faces s).2 = s.
Proof.
  revert s. change (read_only (mesh_surface_area verts faces)).
  unfold mesh_surface_area.
  apply FrameFacts.read_only_bind; [apply FrameFacts.read_only_load_faces|].
  intros fs.
  apply FrameFacts.read_only_bind; [apply FrameFacts.read_only_load_verts|].
  intros vs.
  apply FrameFacts.read_only_bind; [apply FrameFacts.read_only_lift|].
  intros ts. apply FrameFacts.read_only_ret.
Qed.

Section StoreIsPreserved.

Context {lib : Collaborators}.

(** X2: [correct_mesh_orientation] never writes to an array that was in the
    store before the call: on every path, also when it raises, each array of
    the initial store is in the final store with its contents. *)
Theorem correct_mesh_orientation_preserves_the_store
    volume verts faces spacing gd s :
  heap s ⊆ heap (correct_mesh_orientation volume verts faces spacing gd s).2.
Proof.
  revert s.
  change (preserves_store
            (correct_mesh_orientation volume verts faces spacing gd)).
  unfold correct_mesh_orientation, np_gradient, ndi_map_coordinates.
  apply FrameFacts.preserves_bind.
  { apply FrameFacts.preserves_bind; [apply FrameFacts.preserves_log|].
    intros _. apply FrameFacts.read_only_preserves, FrameFacts.read_only_lift. }
  intros [[grad_x grad_y] grad_z].
  apply FrameFacts.preserves_bind.
  { apply FrameFacts.read_only_preserves, FrameFacts.read_only_load_faces. }
  intros fs. apply FrameFacts.preserves_bind.
  { apply FrameFacts.read_only_preserves, FrameFacts.read_only_load_verts. }
  intros vs. apply FrameFacts.preserves_bind.
  { apply FrameFacts.read_only_preserves, FrameFacts.read_only_lift. }
  intros ts. cbv zeta.
  do 3 (apply FrameFacts.preserves_bind;
        [ apply FrameFacts.preserves_bind; [apply FrameFacts.preserves_log|];
          intros _; apply FrameFacts.read_only_preserves,
                      FrameFacts.read_only_ret
        | intros ? ]).
  apply FrameFacts.preserves_bind.
  { destruct (contains "descent" gd);
      [apply FrameFacts.read_only_preserves, FrameFacts.read_only_ret|].
    destruct (contains "ascent" gd);
      [apply FrameFacts.read_only_preserves, FrameFacts.read_only_ret|].
    apply FrameFacts.preserves_raise. }
  intros indices. apply FrameFacts.preserves_bind.
  { apply FrameFacts.read_only_preserves, FrameFacts.read_only_load_faces. }
  intros orig. apply FrameFacts.preserves_copy_and_patch.
Qed.

End StoreIsPreserved.

(** ** Indices that are not positions *)

Module IndexFacts.

Import Np.

Lemma getitem_invalid {A} (l : list A) i :
  valid_index (length l) i = false →
  getitem l i = Raise (IndexError "index out of bounds").
Proof.
  unfold valid_index, getitem. intros Hi.
  apply andb_false_iff in Hi.
  set (n := Z.of_nat (length l)) in *.
  set (j := if (i <? 0)%Z then (i + n)%Z else i).
  assert (Hj : (0 <=? j)%Z && (j <? n)%Z = false).
  { apply andb_false_iff. unfold j.
    destruct (Z.ltb_spec i 0), Hi as [Hi | Hi];
      [ apply Z.leb_gt in Hi | apply Z.ltb_ge in Hi
      | apply Z.leb_gt in Hi | apply Z.ltb_ge in Hi ];
      first [ left; apply Z.leb_gt; lia | right; apply Z.ltb_ge; lia ]. }
  rewrite Hj. reflexivity.
Qed.

Lemma take_face_invalid verts f :
  valid_face (length verts) f = false →
  take_face verts f = Raise (IndexError "index out of bounds").
Proof.
  destruct f as [[i0 i1] i2]. unfold valid_face, take_face. simpl.
  destruct (valid_index (length verts) i0) eqn:H0; simpl.
  - destruct (NpFacts.getitem_valid verts i0 H0) as [v0 ->]. simpl.
    destruct (valid_index (length verts) i1) eqn:H1; simpl.
    + destruct (NpFacts.getitem_valid verts i1 H1) as [v1 ->]. simpl.
      intros H2. rewrite (getitem_invalid verts i2 H2). reflexivity.
    + intros _. rewrite (getitem_invalid verts i1 H1). reflexivity.
  - intros _. rewrite (getitem_invalid verts i0 H0). reflexivity.
Qed.

Lemma take_invalid verts faces :
  valid_mesh verts faces = false →
  take verts faces = Raise (IndexError "index out of bounds").
Proof.
  unfold valid_mesh. induction faces as [|f fs IH]; simpl; [discriminate|].
  destruct (valid_face (length verts) f) eqn:Hf; simpl.
  - destruct (NpFacts.take_face_valid verts f Hf) as [t ->]. simpl.
    intros Hfs. rewrite (IH Hfs). reflexivity.
  - intros _. rewrite (take_face_invalid verts f Hf). reflexivity.
Qed.

End IndexFacts.

(** X3: when some face holds an index outside [-V, V), for [V] vertices,
    [mesh_surface_area] raises [IndexError] and returns no area; nothing
    else is validated. *)
Theorem mesh_surface_area_raises_on_a_stray_index verts faces s vs fs :
  heap s !! verts = Some (Verts vs) →
  heap s !! faces = Some (Faces fs) →
  valid_mesh vs fs = false →
  mesh_surface_area verts faces s
  = (Raise (IndexError "index out of bounds"), s).
Proof.
  intros Hverts Hfaces Hbad. unfold mesh_surface_area.
  rewrite OrientationFacts.run_bind. unfold load_faces at 1. rewrite Hfaces.
  rewrite OrientationFacts.run_bind. unfold load_verts at 1. rewrite Hverts.
  rewrite OrientationFacts.run_bind. unfold lift at 1.
  rewrite (IndexFacts.take_invalid vs fs Hbad). reflexivity.
Qed.

Lemma mesh_surface_area_raises_on_a_stray_index_witness :
  mesh_surface_area 1 2
    (Examples.mesh_state Examples.tetra_verts Examples.stray_faces)
  = (Raise (IndexError "index out of bounds"),
     Examples.mesh_state Examples.tetra_verts Examples.stray_faces).
Proof.
  apply (mesh_surface_area_raises_on_a_stray_index 1 2
           (Examples.mesh_state Examples.tetra_verts Examples.stray_faces)
           Examples.tetra_verts Examples.stray_faces);
    vm_compute; reflexivity.
Defined.

Section StrayIndex.

Context {lib : Collaborators}.

(** X4: in [correct_mesh_orientation] the faces are looked up before the
    mode is examined: with a face index outside [-V, V) the call raises
    [IndexError] for every [gradient_direction], recognised or not, after
    the gradient has been computed and before it is sampled, and the store
    is as it was. *)
Theorem stray_index_is_reported_before_the_mode
    volume verts faces spacing gd s vs fs grads :
  heap s !! verts = Some (Verts vs) →
  heap s !! faces = Some (Faces fs) →
  gradient volume spacing = Ok grads →
  valid_mesh vs fs = false →
  correct_mesh_orientation volume verts faces spacing gd s
  = (Raise (IndexError "index out of bounds"),
     State (heap s) (trace s ++ [CallGradient])).
Proof.
  intros Hverts Hfaces Hgrad Hbad.
  unfold correct_mesh_orientation, np_gradient.
  rewrite !OrientationFacts.run_bind. unfold log at 1, lift at 1.
  cbn [heap trace]. rewrite Hgrad. destruct grads as [[gx gy] gz].
  rewrite !OrientationFacts.run_bind. unfold load_faces at 1.
  cbn [heap trace]. rewrite Hfaces.
  rewrite !OrientationFacts.run_bind. unfold load_verts at 1.
  cbn [heap trace]. rewrite Hverts.
  rewrite !OrientationFacts.run_bind. unfold lift at 1.
  rewrite (IndexFacts.take_invalid vs fs Hbad). reflexivity.
Qed.

End StrayIndex.

Lemma stray_index_is_reported_before_the_mode_witness :
  correct_mesh_orientation (lib := Examples.ramp) Examples.ramp_volume 1 2
    Examples.unit_spacing "sideways"
    (Examples.mesh_state Examples.tetra_verts Examples.stray_faces)
  = (Raise (IndexError "index out of bounds"),
     State (heap (Examples.mesh_state Examples.tetra_verts
                    Examples.stray_faces))
           (trace (Examples.mesh_state Examples.tetra_verts
                     Examples.stray_faces) ++ [CallGradient])).
Proof.
  apply (stray_index_is_reported_before_the_mode (lib := Examples.ramp)
           Examples.ramp_volume 1 2 Examples.unit_spacing "sideways"
           (Examples.mesh_state Examples.tetra_verts Examples.stray_faces)
           Examples.tetra_verts Examples.stray_faces Examples.ramp_fields);
    vm_compute; reflexivity.
Defined.

(** ** Faces without a direction *)

Module NanFacts.

Lemma div_of_zeros x y :
  PrimFloat.is_zero x = true → PrimFloat.is_zero y = true →
  Prim2SF (x / y) = S754_nan.
Proof.
  intros [sx Hx]%AreaFacts.is_zero_spec [sy Hy]%AreaFacts.is_zero_spec.
  rewrite FloatAxioms.div_spec, Hx, Hy. reflexivity.
Qed.

Lemma mul_nan_l x y : Prim2SF x = S754_nan → Prim2SF (x * y) = S754_nan.
Proof. intros Hx. rewrite FloatAxioms.mul_spec, Hx. reflexivity. Qed.

Lemma mul_nan_r x y : Prim2SF y = S754_nan → Prim2SF (x * y) = S754_nan.
Proof.
  intros Hy. rewrite FloatAxioms.mul_spec, Hy.
  destruct (Prim2SF x) as [[]|[]| |[] m e]; reflexivity.
Qed.

Lemma add_nan_l x y : Prim2SF x = S754_nan → Prim2SF (x + y) = S754_nan.
Proof. intros Hx. rewrite FloatAxioms.add_spec, Hx. reflexivity. Qed.

Lemma add_nan_r x y : Prim2SF y = S754_nan → Prim2SF (x + y) = S754_nan.
Proof.
  intros Hy. rewrite FloatAxioms.add_spec, Hy.
  destruct (Prim2SF x) as [[]|[]| |[] m e]; reflexivity.
Qed.

Lemma ltb_nan_l x y : Prim2SF x = S754_nan → (x <? y)%float = false.
Proof. intros Hx. rewrite (FloatAxioms.ltb_spec x y), Hx. reflexivity. Qed.

Lemma ltb_nan_r x y : Prim2SF y = S754_nan → (x <? y)%float = false.
Proof.
  intros Hy. rewrite (FloatAxioms.ltb_spec x y), Hy.
  destruct (Prim2SF x) as [[]|[]| |[] m e]; reflexivity.
Qed.

(** Normalising a zero vector divides zeros by a zero norm. *)
Lemma normalize_zero u : Vec.is_zero u = true → Vec.all_nan (Vec.normalize u).
Proof.
  intros Hu. unfold Vec.normalize. rewrite (AreaFacts.norm_of_zero u Hu).
  destruct u as [[u0 u1] u2]. unfold Vec.is_zero in Hu. simpl.
  apply andb_true_iff in Hu as [Hu H2]. apply andb_true_iff in Hu as [H0 H1].
  repeat split; apply div_of_zeros; auto.
Qed.

Lemma dot_nan_r g n :
  Vec.all_nan n → Prim2SF (Vec.sum (Vec.mul g n)) = S754_nan.
Proof.
  destruct g as [[g0 g1] g2], n as [[n0 n1] n2]. simpl.
  intros (H0 & H1 & H2). apply add_nan_r, mul_nan_r, H2.
Qed.

Lemma dot_nan_l g n :
  Vec.all_nan g → Prim2SF (Vec.sum (Vec.mul g n)) = S754_nan.
Proof.
  destruct g as [[g0 g1] g2], n as [[n0 n1] n2]. simpl.
  intros (H0 & H1 & H2). apply add_nan_r, mul_nan_l, H2.
Qed.

Lemma nan_is_never_marked m d :
  Prim2SF d = S754_nan → mis_oriented m d = false.
Proof.
  intros Hd. destruct m; simpl; [apply ltb_nan_l | apply ltb_nan_r]; exact Hd.
Qed.

Lemma not_marked_by_both d :
  mis_oriented Descent d = true → mis_oriented Ascent d = false.
Proof.
  simpl. intros Hd. apply Float64Facts.ltb_cmp in Hd.
  rewrite RangeFacts.ltb_match, (Float64Facts.cmp_antisym d 0).
  unfold Float64.cmp in *. rewrite Hd. reflexivity.
Qed.

End NanFacts.

Section FacesWithoutDirection.

Context {lib : Collaborators}.

Lemma face_dot_unfold grads t :
  face_dot grads t
  = Vec.sum (Vec.mul (Vec.normalize (gradient_at grads t))
                     (Vec.normalize (Vec.cross (edge_a t) (edge_b t)))).
Proof. destruct grads as [[gx gy] gz]. reflexivity. Qed.

(** X5: a face without a direction is never reversed: when the cross
    product of its two edge vectors is a zero vector (a repeated vertex, for
    one), or the gradient sampled at its centroid is, the normalisation
    divides zero by zero, the dot product is a NaN, and the face is
    returned as it was in descent and in ascent mode. *)
Theorem faces_without_direction_are_kept
    volume verts faces spacing gd m s vs fs grads i f t :
  heap s !! verts = Some (Verts vs) →
  heap s !! faces = Some (Faces fs) →
  gradient volume spacing = Ok grads →
  valid_mesh vs fs = true →
  selected gd = Some m →
  fs !! i = Some f →
  Np.take_face vs f = Ok t →
  Vec.is_zero (Vec.cross (edge_a t) (edge_b t)) = true ∨
  Vec.is_zero (gradient_at grads t) = true →
  ∃ l s' fs',
    correct_mesh_orientation volume verts faces spacing gd s = (Ok l, s') ∧
    heap s' !! l = Some (Faces fs') ∧
    fs' !! i = Some f.
Proof.
  intros Hverts Hfaces Hgrad Hvalid Hsel Hf Ht Hzero.
  destruct (NpFacts.take_valid vs fs Hvalid) as [ts Hts].
  rewrite (OrientationFacts.run_correct_mesh_orientation
             _ _ _ _ _ _ vs fs grads ts Hverts Hfaces Hgrad Hts).
  rewrite Hsel. cbv zeta.
  eexists _, _, _. split; [reflexivity|]. cbn [heap].
  split; [apply lookup_insert_eq|].
  destruct (NpFacts.take_lookup vs fs ts i f Hts Hf) as (t' & Ht' & Hi).
  assert (t' = t) as -> by congruence.
  rewrite (orient_lookup m grads ts fs i f t Hf Hi).
  rewrite NanFacts.nan_is_never_marked; [reflexivity|].
  rewrite face_dot_unfold. destruct Hzero as [Hzero | Hzero].
  - apply NanFacts.dot_nan_r, NanFacts.normalize_zero, Hzero.
  - apply NanFacts.dot_nan_l, NanFacts.normalize_zero, Hzero.
Qed.

(** X6: no face is reversed by both modes: for every face of a valid mesh,
    the array returned in descent mode or the array returned in ascent mode
    holds the face as it was. *)
Theorem no_face_is_reversed_by_both_modes
    volume verts faces spacing s vs fs grads :
  heap s !! verts = Some (Verts vs) →
  heap s !! faces = Some (Faces fs) →
  gradient volume spacing = Ok grads →
  valid_mesh vs fs = true →
  ∃ ld sd fsd la sa fsa,
    correct_mesh_orientation volume verts faces spacing "descent" s
    = (Ok ld, sd) ∧
    heap sd !! ld = Some (Faces fsd) ∧
    correct_mesh_orientation volume verts faces spacing "ascent" s
    = (Ok la, sa) ∧
    heap sa !! la = Some (Faces fsa) ∧
    ∀ i f, fs !! i = Some f → fsd !! i = Some f ∨ fsa !! i = Some f.
Proof.
  intros Hverts Hfaces Hgrad Hvalid.
  destruct (NpFacts.take_valid vs fs Hvalid) as [ts Hts].
  rewrite !(OrientationFacts.run_correct_mesh_orientation
              _ _ _ _ _ _ vs fs grads ts Hverts Hfaces Hgrad Hts).
  change (selected "descent") with (Some Descent).
  change (selected "ascent") with (Some Ascent). cbv zeta.
  eexists _, _, _, _, _, _.
  split; [reflexivity|]. cbn [heap]. split; [apply lookup_insert_eq|].
  split; [reflexivity|]. cbn [heap]. split; [apply lookup_insert_eq|].
  intros i f Hf.
  destruct (NpFacts.take_lookup vs fs ts i f Hts Hf) as (t & Ht & Hi).
  rewrite !(orient_lookup _ grads ts fs i f t Hf Hi).
  destruct (mis_oriented Descent (face_dot grads t)) eqn:Hd; [|auto].
  right. rewrite (NanFacts.not_marked_by_both _ Hd). reflexivity.
Qed.

Lemma valid_face_reversed n f : valid_face n (reversed f) = valid_face n f.
Proof.
  destruct f as [[i0 i1] i2]. unfold valid_face, reversed. simpl.
  destruct (valid_index n i0), (valid_index n i1), (valid_index n i2);
    reflexivity.
Qed.

Lemma valid_mesh_orient m ds vs fs :
  valid_mesh vs fs = true → valid_mesh vs (orient m ds fs) = true.
Proof.
  unfold valid_mesh, orient. revert ds.
  induction fs as [|f fs IH]; intros [|d ds]; simpl; try reflexivity.
  rewrite !andb_true_iff. intros [Hf Hfs]. split; [|apply IH, Hfs].
  destruct (mis_oriented m d); [rewrite valid_face_reversed|]; exact Hf.
Qed.

(** X7: the corrected faces are a valid mesh over the same vertices, so
    they can be passed on: after an accepted call on a valid mesh,
    [mesh_surface_area] on the vertices and the returned array returns an
    area and raises nothing. *)
Theorem corrected_faces_are_a_valid_mesh
    volume verts faces spacing gd m s vs fs grads :
  heap s !! verts = Some (Verts vs) →
  heap s !! faces = Some (Faces fs) →
  gradient volume spacing = Ok grads →
  valid_mesh vs fs = true →
  selected gd = Some m →
  ∃ l s' fs' a,
    correct_mesh_orientation volume verts faces spacing gd s = (Ok l, s') ∧
    heap s' !! l = Some (Faces fs') ∧
    valid_mesh vs fs' = true ∧
    mesh_surface_area verts l s' = (Ok a, s').
Proof.
  intros Hverts Hfaces Hgrad Hvalid Hsel.
  destruct (NpFacts.take_valid vs fs Hvalid) as [ts Hts].
  rewrite (OrientationFacts.run_correct_mesh_orientation
             _ _ _ _ _ _ vs fs grads ts Hverts Hfaces Hgrad Hts).
  rewrite Hsel. cbv zeta.
  set (l := fresh (dom (heap s))).
  set (fs' := orient m (map (face_dot grads) ts) fs).
  set (s' := State _ _).
  assert (Hvalid' : valid_mesh vs fs' = true)
    by apply valid_mesh_orient, Hvalid.
  destruct (NpFacts.take_valid vs fs' Hvalid') as [ts' Hts'].
  assert (Hfresh : heap s !! l = None) by apply not_elem_of_dom, is_fresh.
  exists l, s', fs', (area ts').
  split; [reflexivity|]. split; [apply lookup_insert_eq|].
  split; [exact Hvalid'|].
  apply (AreaFacts.run_mesh_surface_area verts l s' vs fs' ts').
  - unfold s'. cbn [heap]. rewrite lookup_insert_ne; [exact Hverts|congruence].
  - apply lookup_insert_eq.
  - exact Hts'.
Qed.

End FacesWithoutDirection.

Lemma faces_without_direction_are_kept_witness :
  ∃ l s' fs',
    correct_mesh_orientation (lib := Examples.ramp) Examples.ramp_volume 1 2
      Examples.unit_spacing "descent"
      (Examples.mesh_state Examples.tetra_verts Examples.degenerate_faces)
    = (Ok l, s') ∧
    heap s' !! l = Some (Faces fs') ∧
    fs' !! 1%nat = Some (0, 0, 3)%Z.
Proof.
  apply (faces_without_direction_are_kept (lib := Examples.ramp)
           Examples.ramp_volume 1 2 Examples.unit_spacing "descent" Descent
           (Examples.mesh_state Examples.tetra_verts Examples.degenerate_faces)
           Examples.tetra_verts Examples.degenerate_faces Examples.ramp_fields
           1%nat (0, 0, 3)%Z ((0, 0, 0), (0, 0, 0), (0, 0, 1))%float);
    try (vm_compute; reflexivity).
  left. vm_compute. reflexivity.
Defined.

Lemma no_face_is_reversed_by_both_modes_witness :
  ∃ ld sd fsd la sa fsa,
    correct_mesh_orientation (lib := Examples.ramp) Examples.ramp_volume 1 2
      Examples.unit_spacing "descent"
      (Examples.mesh_state Examples.tetra_verts Examples.tetra_faces)
    = (Ok ld, sd) ∧
    heap sd !! ld = Some (Faces fsd) ∧
    correct_mesh_orientation (lib := Examples.ramp) Examples.ramp_volume 1 2
      Examples.unit_spacing "ascent"
      (Examples.mesh_state Examples.tetra_verts Examples.tetra_faces)
    = (Ok la, sa) ∧
    heap sa !! la = Some (Faces fsa) ∧
    ∀ i f, Examples.tetra_faces !! i = Some f →
           fsd !! i = Some f ∨ fsa !! i = Some f.
Proof.
  apply (no_face_is_reversed_by_both_modes (lib := Examples.ramp)
           Examples.ramp_volume 1 2 Examples.unit_spacing
           (Examples.mesh_state Examples.tetra_verts Examples.tetra_faces)
           Examples.tetra_verts Examples.tetra_faces Examples.ramp_fields);
    vm_compute; reflexivity.
Defined.

Lemma corrected_faces_are_a_valid_mesh_witness :
  ∃ l s' fs' a,
    correct_mesh_orientation (lib := Examples.ramp) Examples.ramp_volume 1 2
      Examples.unit_spacing "descent"
      (Examples.mesh_state Examples.tetra_verts Examples.tetra_faces)
    = (Ok l, s') ∧
    heap s' !! l = Some (Faces fs') ∧
    valid_mesh Examples.tetra_verts fs' = true ∧
    mesh_surface_area 1 l s' = (Ok a, s').
Proof.
  apply (corrected_faces_are_a_valid_mesh (lib := Examples.ramp)
           Examples.ramp_volume 1 2 Examples.unit_spacing "descent" Descent
           (Examples.mesh_state Examples.tetra_verts Examples.tetra_faces)
           Examples.tetra_verts Examples.tetra_faces Examples.ramp_fields);
    vm_compute; reflexivity.
Defined.

(** ** Levels and samples that are not numbers *)

Module NanRangeFacts.

Import Float64Facts.

Lemma minimum_of_nan acc x :
  is_nan acc = true ∨ is_nan x = true → is_nan (Np.minimum acc x) = true.
Proof.
  unfold Np.minimum. destruct (is_nan acc) eqn:Hacc.
  - rewrite orb_true_r. intros _. exact Hacc.
  - intros [Hn | Hx]; [discriminate|].
    rewrite RangeFacts.leb_match, (RangeFacts.cmp_nan_r acc x Hx). exact Hx.
Qed.

Lemma maximum_of_nan acc x :
  is_nan acc = true ∨ is_nan x = true → is_nan (Np.maximum acc x) = true.
Proof.
  unfold Np.maximum. destruct (is_nan acc) eqn:Hacc.
  - rewrite orb_true_r. intros _. exact Hacc.
  - intros [Hn | Hx]; [discriminate|].
    rewrite RangeFacts.leb_match, (RangeFacts.cmp_nan_l x acc Hx). exact Hx.
Qed.

(** A reduction whose step keeps a NaN returns a NaN as soon as the data
    holds one. *)
Lemma fold_of_nan (op : float → float → float) xs acc :
  (∀ a x, is_nan a = true ∨ is_nan x = true → is_nan (op a x) = true) →
  is_nan acc = true ∨ Exists (λ x, is_nan x = true) xs →
  is_nan (fold_left op xs acc) = true.
Proof.
  intros Hop. revert acc. induction xs as [|x xs IH]; simpl; intros acc Hn.
  - destruct Hn as [Hn | Hn]; [exact Hn | inversion Hn].
  - apply IH. destruct Hn as [Hn | Hn].
    + left. apply Hop. auto.
    + apply Exists_cons in Hn as [Hx | Hxs]; [left; apply Hop; auto | auto].
Qed.

Lemma range_of_nan_data volume :
  Exists (λ x, is_nan x = true) (Np.data volume) →
  ∃ lo hi, Np.min volume = Ok lo ∧ Np.max volume = Ok hi ∧
           is_nan lo = true ∧ is_nan hi = true.
Proof.
  unfold Np.min, Np.max, Np.reduce.
  destruct (Np.data volume) as [|x xs]; intros Hn; [inversion Hn|].
  apply Exists_cons in Hn.
  eexists _, _. split; [reflexivity|]. split; [reflexivity|].
  split; apply fold_of_nan;
    auto using minimum_of_nan, maximum_of_nan.
Qed.

Lemma range_of_data volume :
  Np.data volume ≠ [] →
  ∃ lo hi, Np.min volume = Ok lo ∧ Np.max volume = Ok hi.
Proof.
  unfold Np.min, Np.max, Np.reduce.
  destruct (Np.data volume) as [|x xs]; [contradiction|]. eauto.
Qed.

Lemma ltb_is_nan_l x y : is_nan x = true → (x <? y)%float = false.
Proof. intros Hx. rewrite RangeFacts.ltb_match, RangeFacts.cmp_nan_l; auto. Qed.

Lemma ltb_is_nan_r x y : is_nan y = true → (x <? y)%float = false.
Proof. intros Hy. rewrite RangeFacts.ltb_match, RangeFacts.cmp_nan_r; auto. Qed.

End NanRangeFacts.

(** ** The mesh that marching cubes returns *)

Module MeshFacts.

Lemma positions_valid_mesh vs (fs : list face) :
  Forall (λ f : face,
            (0 ≤ f.1.1 < Z.of_nat (length vs))%Z ∧
            (0 ≤ f.1.2 < Z.of_nat (length vs))%Z ∧
            (0 ≤ f.2 < Z.of_nat (length vs))%Z) fs →
  valid_mesh vs fs = true.
Proof.
  unfold valid_mesh.
  induction 1 as [|[[i0 i1] i2] fs (H0 & H1 & H2) _ IH]; simpl in *;
    [reflexivity|].
  rewrite IH, andb_true_r. unfold valid_face, valid_index. simpl.
  rewrite !andb_true_iff, !Z.leb_le, !Z.ltb_lt. lia.
Qed.

Section Mesh.

Context {lib : Collaborators}.

(** An accepted call: one traversal, one welding pass, two new arrays. *)
Lemma marching_cubes_arrays volume level spacing s lo hi :
  Np.ndim volume = 3 →
  Np.min volume = Ok lo →
  Np.max volume = Ok hi →
  (level <? lo)%float = false →
  (hi <? level)%float = false →
  ∃ lv lf,
    marching_cubes volume level spacing s
    = (Ok (lv, lf),
       State (<[lf:=asarray_faces
                      (MarchingCubesCy.unpack_unique_verts
                         (iterate_and_store_3d volume level spacing)).2]>
                (<[lv:=asarray_verts
                         (MarchingCubesCy.unpack_unique_verts
                            (iterate_and_store_3d volume level spacing)).1]>
                   (heap s)))
             (trace s ++ [CallIterate; CallUnpack])) ∧
    heap s !! lv = None ∧ heap s !! lf = None ∧ lv ≠ lf.
Proof.
  intros Hdim Hmin Hmax Hlo Hhi.
  rewrite (run_marching_cubes volume level spacing s lo hi
             Hdim Hmin Hmax Hlo Hhi).
  cbv zeta.
  set (mesh := MarchingCubesCy.unpack_unique_verts _).
  set (lv := fresh (dom (heap s))).
  set (h := <[lv:=asarray_verts mesh.1]> (heap s)).
  set (lf := fresh (dom h)).
  assert (Hlv : heap s !! lv = None) by apply not_elem_of_dom, is_fresh.
  assert (Hlf : h !! lf = None) by apply not_elem_of_dom, is_fresh.
  assert (Hne : lv ≠ lf).
  { intros Heq. unfold h in Hlf. rewrite <- Heq, lookup_insert_eq in Hlf.
    discriminate. }
  exists lv, lf.
  split; [reflexivity|]. split; [exact Hlv|]. split; [|exact Hne].
  unfold h in Hlf. rewrite lookup_insert_ne in Hlf by exact Hne. exact Hlf.
Qed.

End Mesh.

End MeshFacts.

Section MarchingCubesExtras.

Context {lib : Collaborators}.

(** X8: the range test lets what is not a number through: with a
    three-dimensional volume, a call is accepted for every level when some
    sample of the volume is a NaN (minimum and maximum are then NaN), and
    for a NaN level whenever the volume has a sample; both comparisons of
    the test are false. *)
Theorem nan_passes_the_range_test volume level spacing s :
  Np.ndim volume = 3 →
  (∃ x, x ∈ Np.data volume ∧ is_nan x = true) ∨
  (Np.data volume ≠ [] ∧ is_nan level = true) →
  ∃ mesh s',
    marching_cubes volume level spacing s = (Ok mesh, s') ∧
    CallIterate ∈ trace s'.
Proof.
  intros Hdim Hnan.
  assert (∃ lo hi, Np.min volume = Ok lo ∧ Np.max volume = Ok hi ∧
                   (level <? lo)%float = false ∧ (hi <? level)%float = false)
    as (lo & hi & Hmin & Hmax & Hlo & Hhi).
  { destruct Hnan as [Hx | [Hdata Hlevel]].
    - apply Exists_exists in Hx.
      destruct (NanRangeFacts.range_of_nan_data volume Hx)
        as (lo & hi & Hmin & Hmax & Hnlo & Hnhi).
      exists lo, hi. repeat split; try assumption.
      + apply NanRangeFacts.ltb_is_nan_r, Hnlo.
      + apply NanRangeFacts.ltb_is_nan_l, Hnhi.
    - destruct (NanRangeFacts.range_of_data volume Hdata)
        as (lo & hi & Hmin & Hmax).
      exists lo, hi. repeat split; try assumption.
      + apply NanRangeFacts.ltb_is_nan_l, Hlevel.
      + apply NanRangeFacts.ltb_is_nan_r, Hlevel. }
  rewrite (run_marching_cubes volume level spacing s lo hi
             Hdim Hmin Hmax Hlo Hhi).
  cbv zeta. eexists _, _. split; [reflexivity|]. cbn [trace].
  apply elem_of_app. right. apply list_elem_of_here.
Qed.

(** X9: a volume with three axes and no sample is rejected by the minimum
    reduction, not by the range test: the call raises the [ValueError] of
    the reduction, before any cell is visited. *)
Theorem empty_volume_has_no_range volume level spacing s :
  Np.ndim volume = 3 →
  Np.data volume = [] →
  marching_cubes volume level spacing s
  = (Raise (ValueError
       "zero-size array to reduction operation minimum which has no identity"),
     s).
Proof.
  intros Hdim Hdata. unfold marching_cubes.
  rewrite Hdim. cbn [Nat.eqb negb].
  rewrite OrientationFacts.run_bind. unfold lift at 1, Np.min, Np.reduce.
  rewrite Hdata. reflexivity.
Qed.

(** A call either raises with the state untouched or has passed the three
    tests. *)
Lemma marching_cubes_outcome volume level spacing s :
  (∃ e, marching_cubes volume level spacing s = (Raise e, s)) ∨
  (∃ lo hi, Np.ndim volume = 3 ∧ Np.min volume = Ok lo ∧
            Np.max volume = Ok hi ∧ (level <? lo)%float = false ∧
            (hi <? level)%float = false).
Proof.
  unfold marching_cubes.
  destruct (Nat.eqb_spec (Np.ndim volume) 3) as [Hdim | Hdim]; cbn [negb];
    [|left; eexists; reflexivity].
  rewrite OrientationFacts.run_bind.
  destruct (Np.min volume) as [lo|e] eqn:Hmin; cbv beta iota delta [lift];
    [|left; eexists; reflexivity].
  destruct (level <? lo)%float eqn:Hlo; [left; eexists; reflexivity|].
  rewrite OrientationFacts.run_bind.
  destruct (Np.max volume) as [hi|e] eqn:Hmax; cbv beta iota delta [lift];
    [|left; eexists; reflexivity].
  destruct (hi <? level)%float eqn:Hhi; [left; eexists; reflexivity|].
  right. exists lo, hi. auto.
Qed.

(** X10: [marching_cubes] never writes to an array that was in the store
    before the call, on any path; the two arrays it returns are new and
    distinct objects. *)
Theorem marching_cubes_returns_new_arrays volume level spacing s :
  heap s ⊆ heap (marching_cubes volume level spacing s).2 ∧
  ∀ lv lf s',
    marching_cubes volume level spacing s = (Ok (lv, lf), s') →
    heap s !! lv = None ∧ heap s !! lf = None ∧ lv ≠ lf.
Proof.
  destruct (marching_cubes_outcome volume level spacing s)
    as [[e Hrun] | (lo & hi & Hdim & Hmin & Hmax & Hlo & Hhi)].
  - rewrite Hrun. split; [reflexivity | discriminate].
  - destruct (MeshFacts.marching_cubes_arrays volume level spacing s lo hi
                Hdim Hmin Hmax Hlo Hhi)
      as (lv & lf & Hrun & Hlv & Hlf & Hne).
    rewrite Hrun. split.
    + cbn [snd heap].
      etransitivity; [apply (insert_subseteq _ lv), Hlv|].
      apply insert_subseteq. rewrite lookup_insert_ne by exact Hne. exact Hlf.
    + intros lv' lf' s' [= <- <- <-]. auto.
Qed.

(** X12: the outputs of [marching_cubes] go into [mesh_surface_area] as
    they are when the mesh has a face, and the call then returns an area
    that is not below zero; when no raw triangle has three distinct corners
    the two outputs are empty one-dimensional arrays, and
    [mesh_surface_area] raises [IndexError] on them instead of returning
    0. *)
Theorem area_of_the_extracted_mesh volume level spacing s lo hi :
  Np.ndim volume = 3 →
  Np.min volume = Ok lo →
  Np.max volume = Ok hi →
  (level <? lo)%float = false →
  (hi <? level)%float = false →
  ∃ lv lf s',
    marching_cubes volume level spacing s = (Ok (lv, lf), s') ∧
    if forallb MarchingCubesCy.degenerate
         (iterate_and_store_3d volume level spacing)
    then mesh_surface_area lv lf s'
         = (Raise (IndexError
              "arrays used as indices must be of integer (or boolean) type"),
            s')
    else ∃ a, mesh_surface_area lv lf s' = (Ok a, s') ∧
              (a <? 0)%float = false.
Proof.
  intros Hdim Hmin Hmax Hlo Hhi.
  destruct (MeshFacts.marching_cubes_arrays volume level spacing s lo hi
              Hdim Hmin Hmax Hlo Hhi)
    as (lv & lf & Hrun & Hlv & Hlf & Hne).
  exists lv, lf. eexists. split; [exact Hrun|].
  destruct (asarray_mesh (iterate_and_store_3d volume level spacing))
    as [(-> & -> & ->) | (-> & vs & fs & -> & -> & _ & _ & Hrange)].
  - unfold mesh_surface_area.
    rewrite OrientationFacts.run_bind. unfold load_faces at 1. cbn [heap].
    rewrite lookup_insert_eq. reflexivity.
  - destruct (NpFacts.take_valid vs fs
                (MeshFacts.positions_valid_mesh vs fs Hrange)) as [ts Hts].
    exists (area ts). split; [|apply AreaFacts.area_not_negative].
    apply (AreaFacts.run_mesh_surface_area lv lf _ vs fs ts); cbn [heap].
    + rewrite lookup_insert_ne by congruence. apply lookup_insert_eq.
    + apply lookup_insert_eq.
    + exact Hts.
Qed.

(** X13: the outputs of [marching_cubes] go into
    [correct_mesh_orientation] as they are when the mesh has a face: with
    the gradient of the volume available and a recognised mode, the call
    returns a new array with one row per face. When no raw triangle has
    three distinct corners, the call raises [IndexError] on the two empty
    arrays, after it has computed the gradient. *)
Theorem orientation_of_the_extracted_mesh
    volume level spacing gd m s lo hi grads :
  Np.ndim volume = 3 →
  Np.min volume = Ok lo →
  Np.max volume = Ok hi →
  (level <? lo)%float = false →
  (hi <? level)%float = false →
  gradient volume spacing = Ok grads →
  selected gd = Some m →
  ∃ lv lf s1,
    marching_cubes volume level spacing s = (Ok (lv, lf), s1) ∧
    if forallb MarchingCubesCy.degenerate
         (iterate_and_store_3d volume level spacing)
    then correct_mesh_orientation volume lv lf spacing gd s1
         = (Raise (IndexError
              "arrays used as indices must be of integer (or boolean) type"),
            State (heap s1) (trace s1 ++ [CallGradient]))
    else ∃ fs l s2 fs',
           heap s1 !! lf = Some (Faces fs) ∧
           correct_mesh_orientation volume lv lf spacing gd s1 = (Ok l, s2) ∧
           heap s2 !! l = Some (Faces fs') ∧
           length fs' = length fs.
Proof.
  intros Hdim Hmin Hmax Hlo Hhi Hgrad Hsel.
  destruct (MeshFacts.marching_cubes_arrays volume level spacing s lo hi
              Hdim Hmin Hmax Hlo Hhi)
    as (lv & lf & Hrun & Hlv & Hlf & Hne).
  exists lv, lf. eexists. split; [exact Hrun|].
  destruct (asarray_mesh (iterate_and_store_3d volume level spacing))
    as [(-> & -> & ->) | (-> & vs & fs & -> & -> & _ & _ & Hrange)].
  - unfold correct_mesh_orientation, np_gradient.
    rewrite !OrientationFacts.run_bind. unfold log at 1, lift at 1.
    cbn [heap trace]. rewrite Hgrad. destruct grads as [[gx gy] gz].
    rewrite !OrientationFacts.run_bind. unfold load_faces at 1.
    cbn [heap trace]. rewrite lookup_insert_eq. reflexivity.
  - destruct (NpFacts.take_valid vs fs
                (MeshFacts.positions_valid_mesh vs fs Hrange)) as [ts Hts].
    exists fs. eexists _, _, _. cbn [heap].
    split; [apply lookup_insert_eq|].
    rewrite (OrientationFacts.run_correct_mesh_orientation
               volume lv lf spacing gd _ vs fs grads ts); cbn [heap].
    + rewrite Hsel. cbv zeta. split; [reflexivity|]. cbn [heap].
      split; [apply lookup_insert_eq|].
      apply orient_length. rewrite length_map.
      eapply NpFacts.take_length, Hts.
    + rewrite lookup_insert_ne by congruence. apply lookup_insert_eq.
    + apply lookup_insert_eq.
    + exact Hgrad.
    + exact Hts.
Qed.

End MarchingCubesExtras.

Lemma nan_passes_the_range_test_witness :
  (∃ mesh s',
     marching_cubes (lib := Examples.ramp) Examples.nan_volume 7
       Examples.unit_spacing (State ∅ []) = (Ok mesh, s') ∧
     CallIterate ∈ trace s') ∧
  (∃ mesh s',
     marching_cubes (lib := Examples.ramp) Examples.corner_volume nan
       Examples.unit_spacing (State ∅ []) = (Ok mesh, s') ∧
     CallIterate ∈ trace s').
Proof.
  split.
  - apply (nan_passes_the_range_test (lib := Examples.ramp)
             Examples.nan_volume 7 Examples.unit_spacing (State ∅ []));
      [reflexivity|].
    left. exists nan. split; [|reflexivity].
    do 3 apply list_elem_of_further. apply list_elem_of_here.
  - apply (nan_passes_the_range_test (lib := Examples.ramp)
             Examples.corner_volume nan Examples.unit_spacing (State ∅ []));
      [reflexivity|].
    right. split; [discriminate | reflexivity].
Defined.

Lemma empty_volume_has_no_range_witness :
  marching_cubes (lib := Examples.ramp) Examples.empty_volume 0
    Examples.unit_spacing (State ∅ [])
  = (Raise (ValueError
       "zero-size array to reduction operation minimum which has no identity"),
     State ∅ []).
Proof.
  apply (empty_volume_has_no_range (lib := Examples.ramp)
           Examples.empty_volume 0 Examples.unit_spacing (State ∅ []));
    reflexivity.
Defined.

Lemma area_of_the_extracted_mesh_witness :
  (∃ lv lf s',
     marching_cubes (lib := Examples.fan) Examples.corner_volume 0.5
       Examples.unit_spacing (State ∅ []) = (Ok (lv, lf), s') ∧
     ∃ a, mesh_surface_area lv lf s' = (Ok a, s') ∧ (a <? 0)%float = false) ∧
  (∃ lv lf s',
     marching_cubes (lib := Examples.pinched) Examples.corner_volume 0.5
       Examples.unit_spacing (State ∅ []) = (Ok (lv, lf), s') ∧
     mesh_surface_area lv lf s'
     = (Raise (IndexError
          "arrays used as indices must be of integer (or boolean) type"),
        s')).
Proof.
  split.
  - apply (area_of_the_extracted_mesh (lib := Examples.fan)
             Examples.corner_volume 0.5 Examples.unit_spacing (State ∅ []) 0 1);
      reflexivity.
  - apply (area_of_the_extracted_mesh (lib := Examples.pinched)
             Examples.corner_volume 0.5 Examples.unit_spacing (State ∅ []) 0 1);
      reflexivity.
Defined.

Lemma orientation_of_the_extracted_mesh_witness :
  (∃ lv lf s1,
     marching_cubes (lib := Examples.fan) Examples.ramp_volume 1
       Examples.unit_spacing (State ∅ []) = (Ok (lv, lf), s1) ∧
     ∃ fs l s2 fs',
       heap s1 !! lf = Some (Faces fs) ∧
       correct_mesh_orientation (lib := Examples.fan) Examples.ramp_volume
         lv lf Examples.unit_spacing "descent" s1 = (Ok l, s2) ∧
       heap s2 !! l = Some (Faces fs') ∧
       length fs' = length fs) ∧
  (∃ lv lf s1,
     marching_cubes (lib := Examples.pinched) Examples.ramp_volume 1
       Examples.unit_spacing (State ∅ []) = (Ok (lv, lf), s1) ∧
     correct_mesh_orientation (lib := Examples.pinched) Examples.ramp_volume
       lv lf Examples.unit_spacing "descent" s1
     = (Raise (IndexError
          "arrays used as indices must be of integer (or boolean) type"),
        State (heap s1) (trace s1 ++ [CallGradient]))).
Proof.
  split.
  - apply (orientation_of_the_extracted_mesh (lib := Examples.fan)
             Examples.ramp_volume 1 Examples.unit_spacing "descent" Descent
             (State ∅ []) 0 2 Examples.ramp_fields);
      vm_compute; reflexivity.
  - apply (orientation_of_the_extracted_mesh (lib := Examples.pinched)
             Examples.ramp_volume 1 Examples.unit_spacing "descent" Descent
             (State ∅ []) 0 2 Examples.ramp_fields);
      vm_compute; reflexivity.
Defined.

(** ** The area does not see the winding *)

Module SymmetryFacts.

Lemma SFmul_comm x y : SFmul prec emax x y = SFmul prec emax y x.
Proof.
  destruct x as [sx|sx| |sx mx ex], y as [sy|sy| |sy my ey]; simpl;
    rewrite ?(xorb_comm sx sy); try reflexivity.
  rewrite (Pos.mul_comm mx my), (Z.add_comm ex ey). reflexivity.
Qed.

Lemma round_aux_abs s s' m e l :
  SFabs (binary_round_aux prec emax s m e l)
  = SFabs (binary_round_aux prec emax s' m e l).
Proof.
  unfold binary_round_aux.
  destruct (shr_fexp prec emax m e l) as [mrs e1].
  destruct (shr_fexp prec emax _ e1 loc_Exact) as [mrs' e2].
  destruct (shr_m mrs'); simpl; try reflexivity.
  destruct (Z.leb e2 _); reflexivity.
Qed.

Lemma normalize_opp_abs z e :
  SFabs (binary_normalize prec emax (- z) e false)
  = SFabs (binary_normalize prec emax z e false).
Proof.
  destruct z as [|p|p]; simpl; try reflexivity;
    unfold binary_round; destruct (shl_align _ _ _) as [mz ez];
    apply round_aux_abs.
Qed.

(** [y - x] and [x - y] differ in sign at most. *)
Lemma SFsub_swap_abs x y :
  SFabs (SFsub prec emax y x) = SFabs (SFsub prec emax x y).
Proof.
  destruct x as [sx|sx| |sx mx ex], y as [sy|sy| |sy my ey];
    try (simpl; repeat (match goal with b : bool |- _ => destruct b end);
         reflexivity).
  unfold SFsub. rewrite (Z.min_comm ey ex).
  set (X := cond_Zopp sx _). set (Y := cond_Zopp sy _).
  replace (Y - X)%Z with (- (X - Y))%Z by lia.
  apply normalize_opp_abs.
Qed.

(** A square sees the magnitude only. *)
Lemma SFmul_square_abs x y :
  SFabs x = SFabs y → SFmul prec emax x x = SFmul prec emax y y.
Proof.
  destruct x as [sx|sx| |sx mx ex], y as [sy|sy| |sy my ey]; simpl;
    try discriminate; try reflexivity.
  - intros _. destruct sx, sy; reflexivity.
  - intros _. destruct sx, sy; reflexivity.
  - intros [= -> ->]. destruct sx, sy; reflexivity.
Qed.

Lemma mul_comm x y : (x * y = y * x)%float.
Proof.
  apply Prim2SF_inj. rewrite !FloatAxioms.mul_spec. apply SFmul_comm.
Qed.

Lemma square_sub_swap p q : ((q - p) * (q - p) = (p - q) * (p - q))%float.
Proof.
  apply Prim2SF_inj. rewrite !FloatAxioms.mul_spec, !FloatAxioms.sub_spec.
  apply SFmul_square_abs, SFsub_swap_abs.
Qed.

Lemma norm_cross_swap a b :
  Vec.norm (Vec.cross b a) = Vec.norm (Vec.cross a b).
Proof.
  destruct a as [[a0 a1] a2], b as [[b0 b1] b2].
  unfold Vec.norm, Vec.square, Vec.sum, Vec.cross, Vec.mul.
  rewrite (mul_comm b1 a2), (mul_comm b2 a1), (mul_comm b2 a0),
    (mul_comm b0 a2), (mul_comm b0 a1), (mul_comm b1 a0).
  rewrite (square_sub_swap (a1 * b2) (a2 * b1)),
    (square_sub_swap (a2 * b0) (a0 * b2)),
    (square_sub_swap (a0 * b1) (a1 * b0)).
  reflexivity.
Qed.

Lemma cross_norm_swap t : cross_norm (swap_corners t) = cross_norm t.
Proof.
  destruct t as [[v0 v1] v2]. unfold cross_norm, swap_corners, edge_a, edge_b.
  simpl. apply norm_cross_swap.
Qed.

Lemma getitem_outcome {A} (l : list A) i :
  (∃ x, Np.getitem l i = Ok x) ∨
  Np.getitem l i = Raise (IndexError "index out of bounds").
Proof.
  destruct (valid_index (length l) i) eqn:Hi.
  - left. apply NpFacts.getitem_valid, Hi.
  - right. apply IndexFacts.getitem_invalid, Hi.
Qed.

Lemma take_face_swap verts f :
  Np.take_face verts (swap_winding f)
  = match Np.take_face verts f with
    | Ok t => Ok (swap_corners t)
    | Raise e => Raise e
    end.
Proof.
  destruct f as [[i0 i1] i2]. unfold Np.take_face, swap_winding. simpl.
  destruct (getitem_outcome verts i0) as [[v0 ->] | ->],
    (getitem_outcome verts i1) as [[v1 ->] | ->],
    (getitem_outcome verts i2) as [[v2 ->] | ->]; reflexivity.
Qed.

Lemma take_swap verts faces :
  Np.take verts (map swap_winding faces)
  = match Np.take verts faces with
    | Ok ts => Ok (map swap_corners ts)
    | Raise e => Raise e
    end.
Proof.
  induction faces as [|f fs IH]; [reflexivity|].
  cbn [map Np.take]. rewrite take_face_swap, IH.
  destruct (Np.take_face verts f) as [t|e]; [|reflexivity].
  destruct (Np.take verts fs) as [ts|e]; reflexivity.
Qed.

End SymmetryFacts.

Lemma run_mesh_surface_area_take verts faces s vs fs :
  heap s !! verts = Some (Verts vs) →
  heap s !! faces = Some (Faces fs) →
  mesh_surface_area verts faces s
  = match Np.take vs fs with
    | Ok ts => (Ok (area ts), s)
    | Raise e => (Raise e, s)
    end.
Proof.
  intros Hverts Hfaces. unfold mesh_surface_area.
  rewrite OrientationFacts.run_bind. unfold load_faces at 1. rewrite Hfaces.
  rewrite OrientationFacts.run_bind. unfold load_verts at 1. rewrite Hverts.
  rewrite OrientationFacts.run_bind. unfold lift at 1.
  destruct (Np.take vs fs) as [ts|e]; [|reflexivity].
  rewrite AreaFacts.norms_cross_norm. reflexivity.
Qed.

(** X14: the area does not see the winding: over the same vertices, the
    faces with their second and third index exchanged
    ([faces[:, [0, 2, 1]]]) give exactly the same result as the faces
    themselves, the same number bit for bit or the same exception. *)
Theorem area_ignores_the_winding verts faces faces' s vs fs :
  heap s !! verts = Some (Verts vs) →
  heap s !! faces = Some (Faces fs) →
  heap s !! faces' = Some (Faces (map swap_winding fs)) →
  mesh_surface_area verts faces' s = mesh_surface_area verts faces s.
Proof.
  intros Hverts Hfaces Hfaces'.
  rewrite (run_mesh_surface_area_take verts faces s vs fs Hverts Hfaces).
  rewrite (run_mesh_surface_area_take verts faces' s vs _ Hverts Hfaces').
  rewrite SymmetryFacts.take_swap.
  destruct (Np.take vs fs) as [ts|e]; [|reflexivity].
  unfold area. rewrite map_map.
  rewrite (map_ext _ cross_norm SymmetryFacts.cross_norm_swap). reflexivity.
Qed.

Lemma area_ignores_the_winding_witness :
  mesh_surface_area 1 3
    (Examples.two_faces_state Examples.tetra_verts Examples.tetra_faces
       (map swap_winding Examples.tetra_faces))
  = mesh_surface_area 1 2
      (Examples.two_faces_state Examples.tetra_verts Examples.tetra_faces
         (map swap_winding Examples.tetra_faces)).
Proof.
  apply (area_ignores_the_winding 1 2 3
           (Examples.two_faces_state Examples.tetra_verts Examples.tetra_faces
              (map swap_winding Examples.tetra_faces))
           Examples.tetra_verts Examples.tetra_faces);
    vm_compute; reflexivity.
Defined.

Section OrientationExtras.

Context {lib : Collaborators}.

Lemma orient_nothing_marked m ds (fs : list face) :
  length ds = length fs →
  forallb (λ d, negb (mis_oriented m d)) ds = true →
  orient m ds fs = fs.
Proof.
  unfold orient. revert fs. induction ds as [|d ds IH]; intros [|f fs] Hlen;
    simpl in *; try discriminate; try reflexivity.
  rewrite andb_true_iff. intros [Hd Hds].
  apply negb_true_iff in Hd. rewrite Hd. f_equal. apply IH; [lia | exact Hds].
Qed.

(** X15: a mesh with nothing to correct comes back as an equal copy: when
    no face is marked under the mode, the call returns a new array that
    holds the input faces, in order and unchanged. *)
Theorem well_oriented_mesh_is_copied
    volume verts faces spacing gd m s vs fs grads :
  heap s !! verts = Some (Verts vs) →
  heap s !! faces = Some (Faces fs) →
  gradient volume spacing = Ok grads →
  selected gd = Some m →
  well_oriented m grads vs fs = true →
  ∃ l s',
    correct_mesh_orientation volume verts faces spacing gd s = (Ok l, s') ∧
    l ≠ faces ∧
    heap s' !! l = Some (Faces fs).
Proof.
  intros Hverts Hfaces Hgrad Hsel Hwell.
  unfold well_oriented, dots in Hwell.
  destruct (Np.take vs fs) as [ts|e] eqn:Hts; simpl in Hwell; [|discriminate].
  rewrite (OrientationFacts.run_correct_mesh_orientation
             _ _ _ _ _ _ vs fs grads ts Hverts Hfaces Hgrad Hts).
  rewrite Hsel. cbv zeta.
  assert (Hfresh : heap s !! fresh (dom (heap s)) = None)
    by apply not_elem_of_dom, is_fresh.
  eexists _, _. split; [reflexivity|]. split; [congruence|]. cbn [heap].
  rewrite orient_nothing_marked; [apply lookup_insert_eq | | exact Hwell].
  rewrite length_map. eapply NpFacts.take_length, Hts.
Qed.

End OrientationExtras.

Lemma well_oriented_mesh_is_copied_witness :
  ∃ l s',
    correct_mesh_orientation (lib := Examples.ramp) Examples.ramp_volume 1 2
      Examples.unit_spacing "descent"
      (Examples.mesh_state Examples.tetra_verts Examples.oriented_faces)
    = (Ok l, s') ∧
    l ≠ 2%positive ∧
    heap s' !! l = Some (Faces Examples.oriented_faces).
Proof.
  apply (well_oriented_mesh_is_copied (lib := Examples.ramp)
           Examples.ramp_volume 1 2 Examples.unit_spacing "descent" Descent
           (Examples.mesh_state Examples.tetra_verts Examples.oriented_faces)
           Examples.tetra_verts Examples.oriented_faces Examples.ramp_fields);
    vm_compute; reflexivity.
Defined.
